(** * SRI document downloader: a model of [SRI_Compras_Scrapper_V1.py]

    The script drives a browser through the SRI portal, clicks the XML and
    PDF links of every table row, and files the downloads by invoice number.
    This development embeds the class [SRIDownloader] method by method:

    - Python [str] values are lists of Unicode code points;
    - the character tables of the interpreter (for code points above ASCII)
      are an interface, [Unicode];
    - the Selenium driver and the portal behind it are an interface,
      [Selenium], answering one call at a time and free to raise;
    - the download folder and the two category folders are a concrete file
      system, standard input is a finite list of operator lines, the clock
      counts milliseconds and advances in [time.sleep];
    - every method is a computation in a state-and-exception monad that also
      keeps the trace of prints, prompts and driver calls. *)

From Stdlib Require Import ZArith NArith List Ascii String Bool Lia.
From stdpp Require Import base numbers list gmap.

Local Open Scope N_scope.

(** ** Python strings *)

(** A character is its code point, a [str] the sequence of them. *)
Abbreviation char := N (only parsing).
Abbreviation str := (list N) (only parsing).

(** String literals of the source, written as Rocq strings. *)
Definition lit (s : string) : str := map N_of_ascii (list_ascii_of_string s).

(** The interpreter's Unicode character database, consulted for code points
    from 128 on; ASCII is fixed below. *)
Class Unicode : Type := {
  uni_isalnum : char -> bool;
  uni_isspace : char -> bool;
  uni_isdigit : char -> bool;
  uni_decimal : char -> option N;
  uni_lower : char -> str
}.

Definition is_ascii (c : char) : bool := c <? 128.
Definition ascii_digit (c : char) : bool := (48 <=? c) && (c <=? 57).
Definition ascii_upper (c : char) : bool := (65 <=? c) && (c <=? 90).
Definition ascii_lower (c : char) : bool := (97 <=? c) && (c <=? 122).
Definition ascii_space (c : char) : bool :=
  ((9 <=? c) && (c <=? 13)) || ((28 <=? c) && (c <=? 32)).

Section Strings.
Context {U : Unicode}.

(** [c.isalnum()] *)
Definition isalnum (c : char) : bool :=
  if is_ascii c then ascii_digit c || ascii_upper c || ascii_lower c
  else uni_isalnum c.

(** [c.isspace()] *)
Definition isspace (c : char) : bool :=
  if is_ascii c then ascii_space c else uni_isspace c.

(** [c.isdigit()] *)
Definition isdigit_char (c : char) : bool :=
  if is_ascii c then ascii_digit c else uni_isdigit c.

(** [s.isdigit()]: non-empty and every character is a digit. *)
Definition isdigit (s : str) : bool :=
  match s with [] => false | _ => forallb isdigit_char s end.

(** The value [int] gives a character, when it is a decimal digit. *)
Definition decimal_value (c : char) : option N :=
  if is_ascii c then (if ascii_digit c then Some (c - 48) else None)
  else uni_decimal c.

(** [int(s)] on a string for which [s.isdigit()] holds: no sign, blank or
    underscore can occur, so the result is the positional value, and
    [ValueError] ([None]) when some digit character is not a decimal one.
    The interpreter's optional cap on the number of digits is not part of
    the model. *)
Fixpoint int_digits (acc : N) (s : str) : option N :=
  match s with
  | [] => Some acc
  | c :: t => match decimal_value c with
              | Some d => int_digits (10 * acc + d) t
              | None => None
              end
  end.

Definition int_of_str (s : str) : option N := int_digits 0 s.

(** [s.lower()] *)
Definition lower_char (c : char) : str :=
  if is_ascii c then [if ascii_upper c then c + 32 else c] else uni_lower c.

Definition lower (s : str) : str := concat (map lower_char s).

(** [s.strip()] *)
Fixpoint lstrip (s : str) : str :=
  match s with
  | [] => []
  | c :: t => if isspace c then lstrip t else s
  end.

Definition rstrip (s : str) : str := rev (lstrip (rev s)).
Definition strip (s : str) : str := rstrip (lstrip s).

End Strings.

(** [s.startswith(p)] *)
Fixpoint startswith (p s : str) : bool :=
  match p, s with
  | [], _ => true
  | _ :: _, [] => false
  | a :: p', b :: s' => (a =? b) && startswith p' s'
  end.

(** [s.endswith(p)] *)
Definition endswith (p s : str) : bool := startswith (rev p) (rev s).

(** [p in s] *)
Fixpoint contains (p s : str) : bool :=
  startswith p s || match s with [] => false | _ :: t => contains p t end.

(** [s.split(sep)] for a one-character separator: always at least one part. *)
Fixpoint split (sep : char) (s : str) : list str :=
  match s with
  | [] => [[]]
  | c :: t =>
      if c =? sep then [] :: split sep t
      else match split sep t with
           | [] => [[c]]
           | p :: ps => (c :: p) :: ps
           end
  end.

(** [str(n)] of a non-negative integer. [dec_go] produces the digits from
    the least significant one; the fuel bounds the number of digits. *)
Fixpoint dec_go (fuel : nat) (n : N) (acc : str) : str :=
  let acc' := (48 + n mod 10) :: acc in
  match fuel with
  | O => acc'
  | S f => if n <? 10 then acc' else dec_go f (n / 10) acc'
  end.

Definition dec (n : N) : str := dec_go (N.to_nat (N.log2 n)) n [].

(** [str(z)] of an integer. *)
Definition dec_Z (z : Z) : str :=
  if (z <? 0)%Z then lit "-" ++ dec (Z.abs_N z) else dec (Z.to_N z).

(** [re.sub(pat, repl, s)] for a pattern that is a non-empty literal: the
    matches are found left to right and do not overlap, [skip] counts the
    characters of the current match still to be passed over. *)
Fixpoint sub_literal (pat repl : str) (skip : nat) (s : str) : str :=
  match s with
  | [] => []
  | c :: t =>
      match skip with
      | S k => sub_literal pat repl k t
      | O => if startswith pat s
             then repl ++ sub_literal pat repl (pred (length pat)) t
             else c :: sub_literal pat repl O t
      end
  end.

(** ** Path names (pathlib, on the final component of a path) *)

(** [name.rfind(c)], scanning from position [i] with the best hit so far. *)
Fixpoint rfind_from (c : char) (s : str) (i : nat) (best : option nat) : option nat :=
  match s with
  | [] => best
  | x :: t => rfind_from c t (S i) (if x =? c then Some i else best)
  end.

Definition dot : char := 46.

(** Position of the dot that starts the suffix: the last one, unless it is
    the first or the last character of the name. *)
Definition suffix_pos (name : str) : option nat :=
  match rfind_from dot name O None with
  | Some i => if (0 <? i)%nat && (i <? length name - 1)%nat then Some i else None
  | None => None
  end.

(** [path.suffix] *)
Definition path_suffix (name : str) : str :=
  match suffix_pos name with Some i => drop i name | None => [] end.

(** [path.stem] *)
Definition path_stem (name : str) : str :=
  match suffix_pos name with Some i => take i name | None => name end.

(** [path.with_stem(stem)] *)
Definition with_stem (name new_stem : str) : str := new_stem ++ path_suffix name.

(** ** Exceptions *)

(** The exception classes that can reach the script. The first five derive
    from [Exception]; [KeyboardInterrupt] and [SystemExit] derive from
    [BaseException] only, so [except Exception] lets them through. *)
Inductive exn : Type :=
| NoSuchElementException
| TimeoutException
| WebDriverException
| OSError
| EOFError
| KeyboardInterrupt
| SystemExit.

Definition is_Exception (e : exn) : bool :=
  match e with
  | KeyboardInterrupt | SystemExit => false
  | _ => true
  end.

(** What a call into the outside world gives back. *)
Inductive Result (X : Type) : Type :=
| Val (x : X)
| Exc (e : exn).
Arguments Val {X} x.
Arguments Exc {X} e.

(** ** The file system *)

Inductive Category : Type := PDF | XML.

(** An entry of the download folder [temp_dir]: [e_mtime = None] when
    [stat()] on it fails, [e_movable = false] when moving it fails. *)
Record Entry : Type := {
  e_name : str;
  e_is_file : bool;
  e_mtime : option Z;
  e_movable : bool;
  e_data : nat
}.

(** [temp_dir] is listed in [iterdir()] order; a category folder maps the
    names it holds to their contents. *)
Record FS : Type := {
  temp_dir : list Entry;
  pdf_dir : gmap (list N) nat;
  xml_dir : gmap (list N) nat
}.

Definition dest_dir (fs : FS) (cat : Category) : gmap (list N) nat :=
  match cat with PDF => pdf_dir fs | XML => xml_dir fs end.

Definition name_eqb (a b : str) : bool := bool_decide (a = b).

(** [dest_path.exists()] *)
Definition exists_in (dir : gmap (list N) nat) (name : str) : bool :=
  bool_decide (is_Some (dir !! name)).

(** The effect of a successful [shutil.move(file_path, dest_path)] when
    [dest_path] names a free slot of the category folder. *)
Definition fs_move (fs : FS) (f : Entry) (cat : Category) (dest : str) : FS :=
  let temp := List.filter (fun g => negb (name_eqb (e_name g) (e_name f))) (temp_dir fs) in
  match cat with
  | PDF => {| temp_dir := temp; pdf_dir := <[dest := e_data f]> (pdf_dir fs); xml_dir := xml_dir fs |}
  | XML => {| temp_dir := temp; pdf_dir := pdf_dir fs; xml_dir := <[dest := e_data f]> (xml_dir fs) |}
  end.

(** ** The browser *)

(** Handles of DOM elements. *)
Abbreviation elem := nat (only parsing).

(** The calls the script makes on the driver, on elements and on the
    clock's [sleep], indexed by the type of what they return. *)
Inductive Event : Type -> Type :=
| StartChrome : Event unit
| Get (url : str) : Event unit
| FindById (id : str) : Event elem
| FindAncestorRow (e : elem) : Event elem
| FindCells (e : elem) : Event (list elem)
| Text (e : elem) : Event str
| IsDisplayed (e : elem) : Event bool
| IsEnabled (e : elem) : Event bool
| Click (e : elem) : Event unit
| WaitPresence (css : str) : Event unit
| FindAllCss (css : str) : Event (list elem)
| GetAttribute (e : elem) (name : str) : Event (option str)
| Quit : Event unit
| Sleep (ms : N) : Event unit.

(** The browser, the portal and whatever else acts between two steps of the
    script: every call is answered from a state [E] of the environment,
    which may change, write to the file system (downloads arrive), and
    answer with an exception. *)
Class Selenium (E : Type) : Type :=
  respond : forall X : Type, Event X -> E -> FS -> Result X * E * FS.

(** ** Console *)

Inductive PromptKind : Type :=
| PLogin
| PMultiFile (index : N)
| PChoice.

Inductive Msg : Type :=
| MDriverOk
| MDriverError (e : exn)
| MSaved (cat : Category) (name : str)
| MOrganizeError (e : exn)
| MNoInvoice (e : exn)
| MDocument (number : N) (factura_number : str)
| MLinkOk (cat : Category)
| MLinkTimeout (cat : Category)
| MLinkUnavailable (cat : Category)
| MLinkNotFound (cat : Category)
| MLinkError (cat : Category) (e : exn)
| MRowError (number : N) (e : exn)
| MFound (num_documents : nat) (document_indices : list N)
| MNoLinks
| MPageComplete (successful : N) (num_documents : nat)
| MPageTimeout
| MPageError (e : exn)
| MNavigated
| MNextDisabled
| MNextError (e : exn)
| MStarting
| MPdfTo
| MXmlTo
| MNavigating
| MPleaseLogin
| MMakeSure
| MRule
| MProcessingPage (page_count : N)
| MNoSuccess
| MOptions
| MOptY
| MOptN
| MOptR
| MNoMorePages
| MInvalidChoice
| MSummaryTitle
| MPagesProcessed (page_count : N)
| MPdfLocation
| MXmlLocation
| MSessionCompleted
| MInterrupted
| MUnexpected (e : exn)
| MClosing.

(** One entry of the trace: a [print], an [input] with what it gave, or a
    call on the browser with its answer. *)
Inductive Action : Type :=
| Out (m : Msg)
| In (p : PromptKind) (r : Result (list N))
| Do {X : Type} (ev : Event X) (r : Result X).

(** ** The state of a run *)

Record World (E : Type) : Type := {
  w_env : E;
  w_fs : FS;
  w_clock : Z;
  w_stdin : list (Result (list N));
  w_driver : bool
}.
Arguments w_env {E} _.
Arguments w_fs {E} _.
Arguments w_clock {E} _.
Arguments w_stdin {E} _.
Arguments w_driver {E} _.

(** How a computation ends: with a value, with an exception, or not within
    the iterations the model grants a loop. *)
Inductive Outcome (A : Type) : Type :=
| Ok (a : A)
| Raised (e : exn)
| Div.
Arguments Ok {A} a.
Arguments Raised {A} e.
Arguments Div {A}.

(** What running a computation from a state gives: how it ended, the state
    it left, and the trace of what it printed, asked and called. *)
Record Run (E A : Type) : Type := {
  outcome : Outcome A;
  world : World E;
  trace : list Action
}.
Arguments outcome {E A} _.
Arguments world {E A} _.
Arguments trace {E A} _.

Definition M (E A : Type) : Type := World E -> Run E A.

Declare Scope py_scope.
Delimit Scope py_scope with py.

Section Monad.
Context {E : Type}.

(** [r], after the trace [t] that led to it. *)
Definition after {A : Type} (t : list Action) (r : Run E A) : Run E A :=
  {| outcome := outcome r; world := world r; trace := t ++ trace r |}.

Definition ret {A : Type} (a : A) : M E A :=
  fun w => {| outcome := Ok a; world := w; trace := [] |}.

Definition bind {A B : Type} (c : M E A) (k : A -> M E B) : M E B :=
  fun w =>
    let r := c w in
    match outcome r with
    | Ok a => after (trace r) (k a (world r))
    | Raised e => {| outcome := Raised e; world := world r; trace := trace r |}
    | Div => {| outcome := Div; world := world r; trace := trace r |}
    end.

(** [raise e] *)
Definition raise {A : Type} (e : exn) : M E A :=
  fun w => {| outcome := Raised e; world := w; trace := [] |}.

(** A loop that used up the iterations the model grants it. *)
Definition diverge {A : Type} : M E A :=
  fun w => {| outcome := Div; world := w; trace := [] |}.

(** [try: c except ...: h]: [h e] is the body of the first [except] clause
    that matches [e], [None] when none does. *)
Definition try_except {A : Type} (c : M E A) (h : exn -> option (M E A)) : M E A :=
  fun w =>
    let r := c w in
    match outcome r with
    | Raised e =>
        match h e with
        | Some k => after (trace r) (k (world r))
        | None => r
        end
    | _ => r
    end.

(** [try: c finally: f]: [f] always runs; what it raises replaces the
    outcome of [c]. *)
Definition try_finally {A : Type} (c : M E A) (f : M E unit) : M E A :=
  fun w =>
    let r := c w in
    match outcome r with
    | Div => r
    | o =>
        let r' := f (world r) in
        {| outcome := match outcome r' with
                      | Ok _ => o
                      | Raised e => Raised e
                      | Div => Div
                      end;
           world := world r';
           trace := trace r ++ trace r' |}
    end.

(** [print(...)] *)
Definition say (m : Msg) : M E unit :=
  fun w => {| outcome := Ok tt; world := w; trace := [Out m] |}.

(** [input(...)]: the next line of standard input, [EOFError] at its end;
    the operator may also answer with an interrupt. *)
Definition input (p : PromptKind) : M E (list N) :=
  fun w =>
    match w_stdin w with
    | [] => {| outcome := Raised EOFError; world := w; trace := [In p (Exc EOFError)] |}
    | r :: rest =>
        {| outcome := match r with Val s => Ok s | Exc e => Raised e end;
           world := {| w_env := w_env w; w_fs := w_fs w; w_clock := w_clock w;
                       w_stdin := rest; w_driver := w_driver w |};
           trace := [In p r] |}
    end.

(** [time.time()], in milliseconds. *)
Definition time_time : M E Z :=
  fun w => {| outcome := Ok (w_clock w); world := w; trace := [] |}.

Definition get_fs : M E FS :=
  fun w => {| outcome := Ok (w_fs w); world := w; trace := [] |}.

Definition put_fs (fs : FS) : M E unit :=
  fun w =>
    {| outcome := Ok tt;
       world := {| w_env := w_env w; w_fs := fs; w_clock := w_clock w;
                   w_stdin := w_stdin w; w_driver := w_driver w |};
       trace := [] |}.

(** [self.driver] *)
Definition get_driver : M E bool :=
  fun w => {| outcome := Ok (w_driver w); world := w; trace := [] |}.

(** [self.driver = ...] *)
Definition set_driver (d : bool) : M E unit :=
  fun w =>
    {| outcome := Ok tt;
       world := {| w_env := w_env w; w_fs := w_fs w; w_clock := w_clock w;
                   w_stdin := w_stdin w; w_driver := d |};
       trace := [] |}.

(** The number of lines standard input still holds. *)
Definition stdin_left : M E nat :=
  fun w => {| outcome := Ok (length (w_stdin w)); world := w; trace := [] |}.

Context {Sel : Selenium E}.

(** A call on the browser: the environment answers and moves on. *)
Definition call {X : Type} (ev : Event X) : M E X :=
  fun w =>
    let '(r, env, fs) := respond X ev (w_env w) (w_fs w) in
    {| outcome := match r with Val x => Ok x | Exc e => Raised e end;
       world := {| w_env := env; w_fs := fs; w_clock := w_clock w;
                   w_stdin := w_stdin w; w_driver := w_driver w |};
       trace := [Do ev r] |}.

(** The clock moves on by [ms]. *)
Definition tick (ms : N) : M E unit :=
  fun w =>
    {| outcome := Ok tt;
       world := {| w_env := w_env w; w_fs := w_fs w;
                   w_clock := (w_clock w + Z.of_N ms)%Z;
                   w_stdin := w_stdin w; w_driver := w_driver w |};
       trace := [] |}.

(** [time.sleep(ms / 1000)]: the world goes on meanwhile, then the clock
    has advanced. *)
Definition sleep (ms : N) : M E unit :=
  bind (call (Sleep ms)) (fun _ => tick ms).

End Monad.

Notation "x <- c ;; k" := (bind c (fun x => k))
  (at level 100, c at next level, right associativity) : py_scope.
Notation "c ;; k" := (bind c (fun _ => k))
  (at level 100, right associativity) : py_scope.
Local Open Scope py_scope.

(** ** class SRIDownloader *)

Section SRIDownloader.
Context {U : Unicode} {E : Type} {Sel : Selenium E}.

(** *** wait_for_download_complete *)

(** [self.temp_dir.glob("*.crdownload")] *)
Definition glob_crdownload (fs : FS) : list Entry :=
  List.filter (fun f => endswith (lit ".crdownload") (e_name f)) (temp_dir fs).

Definition is_nil {A : Type} (l : list A) : bool :=
  match l with [] => true | _ => false end.

(** The [while] loop; [fuel] counts the times it may go round again. *)
Fixpoint wait_loop (fuel : nat) (start_time timeout : Z) : M E bool :=
  now <- time_time ;;
  if (now - start_time <? timeout)%Z then
    fs <- get_fs ;;
    let downloading := glob_crdownload fs in
    if is_nil downloading then
      sleep 15 ;;
      ret true
    else
      sleep 250 ;;
      match fuel with
      | O => diverge
      | S fuel' => wait_loop fuel' start_time timeout
      end
  else ret false.

(** The default [timeout=15] is the only one used. A wait of 15 s sleeping
    250 ms a round goes round at most 60 times. *)
Definition wait_for_download_complete : M E bool :=
  start_time <- time_time ;;
  wait_loop 60 start_time 15000.

(** *** move_downloaded_files *)

Definition allowed_char (c : char) : bool :=
  isalnum c || (c =? 45) || (c =? 95) || (c =? 32).

(** Line 91: keep the allowed characters, then [strip()]. *)
Definition sanitize (factura_number : str) : str :=
  strip (List.filter allowed_char factura_number).

(** Line 93: [re.sub(r'(Facturas)(Number)', r'\1 \2', clean_name)]. *)
Definition space_label (clean_name : str) : str :=
  sub_literal (lit "FacturasNumber") (lit "Facturas Number") O clean_name.

(** [int(time.time())] *)
Definition int_seconds (t : Z) : Z := (t ÷ 1000)%Z.

(** Lines 91-95. *)
Definition clean_name_of (factura_number : str) : M E (list N) :=
  let clean_name := sanitize factura_number in
  let clean_name := space_label clean_name in
  if is_nil clean_name then
    t <- time_time ;;
    ret (lit "documento_" ++ dec_Z (int_seconds t))
  else ret clean_name.

(** [file_path.suffix.lower()] *)
Definition suffix_lower (f : Entry) : str := lower (path_suffix (e_name f)).

(** [file_path.stat().st_mtime] *)
Definition stat_mtime (f : Entry) : M E Z :=
  match e_mtime f with
  | Some t => ret t
  | None => raise OSError
  end.

(** Lines 73-76: the scan of the download folder. *)
Fixpoint scan_recent (now : Z) (entries recent_files : list Entry) : M E (list Entry) :=
  match entries with
  | [] => ret recent_files
  | file_path :: rest =>
      if e_is_file file_path then
        mtime <- stat_mtime file_path ;;
        if (now - mtime <? 20000)%Z then
          if name_eqb (suffix_lower file_path) (lit ".pdf")
             || name_eqb (suffix_lower file_path) (lit ".xml")
          then scan_recent now rest (recent_files ++ [file_path])
          else scan_recent now rest recent_files
        else scan_recent now rest recent_files
      else scan_recent now rest recent_files
  end.

(** Lines 100-104: the search for a free name; [fuel] counts the times the
    loop may go round again. *)
Fixpoint free_name (fuel : nat) (dir : gmap (list N) nat)
    (original_dest dest_path : str) (counter : N) : option (list N) :=
  if exists_in dir dest_path then
    match fuel with
    | O => None
    | S fuel' =>
        free_name fuel' dir original_dest
          (with_stem original_dest (path_stem original_dest ++ lit "_" ++ dec counter))
          (counter + 1)
    end
  else Some dest_path.

(** Line 107: [shutil.move]. It fails when the file cannot be moved or is
    no longer there, and then changes nothing. *)
Definition shutil_move (f : Entry) (cat : Category) (dest : str) : M E unit :=
  fs <- get_fs ;;
  if e_movable f && existsb (fun g => name_eqb (e_name g) (e_name f)) (temp_dir fs)
  then put_fs (fs_move fs f cat dest)
  else raise OSError.

(** Lines 79-109: the loop over the recent files. A folder of [n] names
    lets the search go round at most [n + 1] times. *)
Fixpoint move_files (factura_number : str) (recent_files : list Entry)
    (moved_files : list (Category * list N)) : M E (list (Category * list N)) :=
  match recent_files with
  | [] => ret moved_files
  | file_path :: rest =>
      let dest :=
        if name_eqb (suffix_lower file_path) (lit ".pdf") then Some PDF
        else if name_eqb (suffix_lower file_path) (lit ".xml") then Some XML
        else None in
      match dest with
      | None => move_files factura_number rest moved_files
      | Some file_type =>
          clean_name <- clean_name_of factura_number ;;
          let dest_path := clean_name ++ suffix_lower file_path in
          fs <- get_fs ;;
          let dir := dest_dir fs file_type in
          match free_name (S (size dir)) dir dest_path dest_path 1 with
          | None => diverge
          | Some dest_path =>
              shutil_move file_path file_type dest_path ;;
              say (MSaved file_type dest_path) ;;
              move_files factura_number rest (moved_files ++ [(file_type, dest_path)])
          end
      end
  end.

(** The body of the [try] block, lines 69-111. *)
Definition organize (factura_number : str) : M E (list (Category * list N)) :=
  now <- time_time ;;
  fs <- get_fs ;;
  recent_files <- scan_recent now (temp_dir fs) [] ;;
  move_files factura_number recent_files [].

Definition move_downloaded_files (factura_number : str) : M E (list (Category * list N)) :=
  try_except (organize factura_number)
    (fun e =>
       if is_Exception e then Some (say (MOrganizeError e) ;; ret [])
       else None).

(** *** download_document_by_index *)

Definition link_id (index : N) (kind : string) : str :=
  lit "frmPrincipal:tablaCompRecibidos:" ++ dec index ++ lit ":" ++ lit kind.

(** Lines 129-138: the invoice number in the third cell of the link's row;
    [factura_number] is kept when the cell is blank or missing. *)
Definition read_invoice (xml_link_id factura_number : str) : M E (list N) :=
  xml_link <- call (FindById xml_link_id) ;;
  row <- call (FindAncestorRow xml_link) ;;
  cells <- call (FindCells row) ;;
  if (3 <=? length cells)%nat then
    match cells !! 2%nat with
    | Some factura_cell =>
        text <- call (Text factura_cell) ;;
        let factura_text := strip text in
        if negb (is_nil factura_text) && (0 <? length factura_text)%nat
        then ret factura_text
        else ret factura_number
    | None => ret factura_number
    end
  else ret factura_number.

(** Lines 148-162 for XML and 169-183 for PDF, which differ in the link and
    the label only: click the link when it can be clicked, wait for the
    download markers to go, and record the file type on success. *)
Definition try_download (file_type : Category) (the_link_id : str)
    (downloads_successful : list Category) : M E (list Category) :=
  try_except
    (the_link <- call (FindById the_link_id) ;;
     displayed <- call (IsDisplayed the_link) ;;
     actionable <- (if displayed then call (IsEnabled the_link) else ret false) ;;
     if actionable then
       call (Click the_link) ;;
       completed <- wait_for_download_complete ;;
       if completed then
         say (MLinkOk file_type) ;;
         ret (downloads_successful ++ [file_type])
       else
         say (MLinkTimeout file_type) ;;
         ret downloads_successful
     else
       say (MLinkUnavailable file_type) ;;
       ret downloads_successful)
    (fun e =>
       match e with
       | NoSuchElementException =>
           Some (say (MLinkNotFound file_type) ;; ret downloads_successful)
       | _ =>
           if is_Exception e
           then Some (say (MLinkError file_type e) ;; ret downloads_successful)
           else None
       end).

Definition download_document_by_index (index : N) : M E bool :=
  try_except
    (let xml_link_id := link_id index "lnkXml" in
     let pdf_link_id := link_id index "lnkPdf" in
     let factura_number := lit "documento_" ++ dec index in
     factura_number <-
       try_except (read_invoice xml_link_id factura_number)
         (fun e =>
            if is_Exception e then Some (say (MNoInvoice e) ;; ret factura_number)
            else None) ;;
     say (MDocument (index + 1) factura_number) ;;
     downloads_successful <- try_download XML xml_link_id [] ;;
     sleep 500 ;;
     downloads_successful <- try_download PDF pdf_link_id downloads_successful ;;
     (if index =? 0 then (input (PMultiFile index) ;; ret tt) else ret tt) ;;
     if negb (is_nil downloads_successful) then
       sleep 500 ;;
       moved_files <- move_downloaded_files factura_number ;;
       ret (0 <? length moved_files)%nat
     else ret false)
    (fun e =>
       if is_Exception e then Some (say (MRowError (index + 1) e) ;; ret false)
       else None).

(** *** download_current_page *)

Definition xml_links_css : str := lit "a[id*='tablaCompRecibidos'][id*='lnkXml']".

(** Lines 214-221: the row index in a link id. A missing id
    ([AttributeError] on [None]), too few parts, a third part that is not
    all digits, and a digit [int] refuses ([ValueError]) all skip the link. *)
Definition parse_index (the_id : option (list N)) : option N :=
  match the_id with
  | None => None
  | Some s =>
      let parts := split 58 s in
      match parts !! 2%nat with
      | Some part =>
          if (3 <=? length parts)%nat && isdigit part then int_of_str part
          else None
      | None => None
      end
  end.

(** Lines 212-221. *)
Fixpoint collect_indices (xml_links : list elem) (document_indices : list N)
    : M E (list N) :=
  match xml_links with
  | [] => ret document_indices
  | xml_link :: rest =>
      the_id <- call (GetAttribute xml_link (lit "id")) ;;
      match parse_index the_id with
      | Some index => collect_indices rest (document_indices ++ [index])
      | None => collect_indices rest document_indices
      end
  end.

(** Lines 231-234. *)
Fixpoint download_rows (document_indices : list N) (successful : N) : M E N :=
  match document_indices with
  | [] => ret successful
  | doc_index :: rest =>
      ok <- download_document_by_index doc_index ;;
      let successful := if ok then successful + 1 else successful in
      sleep 200 ;;
      download_rows rest successful
  end.

Definition download_current_page : M E bool :=
  try_except
    (call (WaitPresence xml_links_css) ;;
     xml_links <- call (FindAllCss xml_links_css) ;;
     document_indices <- collect_indices xml_links [] ;;
     let num_documents := length document_indices in
     say (MFound num_documents document_indices) ;;
     if (num_documents =? 0)%nat then
       say MNoLinks ;;
       ret false
     else
       successful <- download_rows document_indices 0 ;;
       say (MPageComplete successful num_documents) ;;
       ret (0 <? successful))
    (fun e =>
       match e with
       | TimeoutException => Some (say MPageTimeout ;; ret false)
       | _ =>
           if is_Exception e then Some (say (MPageError e) ;; ret false)
           else None
       end).

(** *** go_to_next_page *)

Definition disabled_class : str := lit "ui-state-disabled".

(** Lines 252-262: the loop over the [next] buttons and what follows it. *)
Fixpoint try_next_buttons (next_buttons : list elem) : M E bool :=
  match next_buttons with
  | [] =>
      say MNextDisabled ;;
      ret false
  | next_button :: rest =>
      attr <- call (GetAttribute next_button (lit "class")) ;;
      let classes := match attr with Some s => s | None => [] end in
      if negb (contains disabled_class classes) then
        call (Click next_button) ;;
        sleep 2000 ;;
        say MNavigated ;;
        ret true
      else try_next_buttons rest
  end.

Definition go_to_next_page : M E bool :=
  try_except
    (next_buttons <- call (FindAllCss (lit ".ui-paginator-next")) ;;
     try_next_buttons next_buttons)
    (fun e =>
       if is_Exception e then Some (say (MNextError e) ;; ret false)
       else None).

(** *** setup_driver *)

Definition setup_driver : M E unit :=
  try_except
    (call StartChrome ;;
     set_driver true ;;
     say MDriverOk)
    (fun e =>
       if is_Exception e then Some (say (MDriverError e) ;; raise e)
       else None).

(** *** run *)

(** Lines 287-316: the page loop; [fuel] counts the pages it may process.
    It returns [page_count]. *)
Fixpoint page_loop (fuel : nat) (page_count total_success : N) : M E N :=
  match fuel with
  | O => diverge
  | S fuel' =>
      let page_count := page_count + 1 in
      say MRule ;;
      say (MProcessingPage page_count) ;;
      say MRule ;;
      ok <- download_current_page ;;
      total_success <-
        (if ok then ret (total_success + 1)
         else (say MNoSuccess ;; ret total_success)) ;;
      say MOptions ;;
      say MOptY ;;
      say MOptN ;;
      say MOptR ;;
      line <- input PChoice ;;
      let choice := strip (lower line) in
      if name_eqb choice (lit "n") then ret page_count
      else if name_eqb choice (lit "r") then page_loop fuel' page_count total_success
      else if name_eqb choice (lit "y") then
        more <- go_to_next_page ;;
        if negb more then
          say MNoMorePages ;;
          ret page_count
        else page_loop fuel' page_count total_success
      else
        say MInvalidChoice ;;
        ret page_count
  end.

(** Every page ends by reading a line, so the loop processes at most one
    page more than there are lines left. *)
Definition run (start_url : str) : M E unit :=
  try_finally
    (try_except
       (say MStarting ;;
        say MPdfTo ;;
        say MXmlTo ;;
        setup_driver ;;
        say MNavigating ;;
        call (Get start_url) ;;
        say MPleaseLogin ;;
        say MMakeSure ;;
        input PLogin ;;
        lines <- stdin_left ;;
        page_count <- page_loop (S lines) 0 0 ;;
        say MRule ;;
        say MSummaryTitle ;;
        say MRule ;;
        say (MPagesProcessed page_count) ;;
        say MPdfLocation ;;
        say MXmlLocation ;;
        say MSessionCompleted)
       (fun e =>
          match e with
          | KeyboardInterrupt => Some (say MInterrupted)
          | _ => if is_Exception e then Some (say (MUnexpected e)) else None
          end))
    (driver <- get_driver ;;
     if driver then
       say MClosing ;;
       call Quit
     else ret tt).

End SRIDownloader.

(** The status the interpreter exits with once [run] is over: 0 after a
    normal return, non-zero after an exception nobody caught. *)
Definition failure_status {A : Type} (o : Outcome A) : bool :=
  match o with
  | Raised _ => true
  | _ => false
  end.

(** ** Constants of the source, evaluated *)

Definition FacturasNumber : list N := Eval cbv in lit "FacturasNumber".
Definition Facturas_Number : list N := Eval cbv in lit "Facturas Number".

(** ** A minimal interpreter: no character above ASCII is classified *)

Definition ascii_only : Unicode :=
  {| uni_isalnum := fun _ => false;
     uni_isspace := fun _ => false;
     uni_isdigit := fun _ => false;
     uni_decimal := fun _ => None;
     uni_lower := fun c => [c] |}.

(** ** Vocabulary of the statements *)

(** The characters a clean name may hold: alphanumeric, hyphen, underscore
    and space. *)
Definition safe_char {U : Unicode} (c : N) : Prop :=
  isalnum c = true \/ c = 45 \/ c = 95 \/ c = 32.

(** ** A simulated portal *)

(** One page of the portal, fixed for the run. A row carries the [id]
    attributes of its two anchors (an anchor without one cannot be found by
    id) and the text of its third cell. The handle of the [k]-th row's XML
    anchor is [10 k + 1], of its PDF anchor [10 k + 2], of the row itself
    [10 k + 3], of its cells [10 k + 4] to [10 k + 6]; the [k]-th [next]
    button is [10 k + 7]. *)
Record PortalRow : Type := {
  r_xml_id : option (list N);
  r_pdf_id : option (list N);
  r_invoice : list N
}.

Record Portal : Type := {
  p_rows : list PortalRow;
  p_next : list (option (list N));
  p_lands : bool;
  p_mtime : Z;
  p_quit : Result unit
}.

Definition find_row_by (f : PortalRow -> option (list N)) (id : list N)
    (rows : list PortalRow) : option nat :=
  (fix go (k : nat) (rows : list PortalRow) : option nat :=
     match rows with
     | [] => None
     | r :: rest =>
         match f r with
         | Some i => if name_eqb i id then Some k else go (S k) rest
         | None => go (S k) rest
         end
     end) O rows.

Definition handles (slot n : nat) : list nat :=
  map (fun k => (10 * k + slot)%nat) (seq 0 n).

(** A click on an anchor lands the file in the download folder at once,
    when the portal delivers at all. *)
Definition landed (p : Portal) (h : nat) (fs : FS) : FS :=
  if p_lands p then
    let name := if (h mod 10 =? 1)%nat then lit "comprobante.xml" else lit "comprobante.pdf" in
    {| temp_dir := temp_dir fs ++
                   [{| e_name := name; e_is_file := true; e_mtime := Some (p_mtime p);
                       e_movable := true; e_data := h |}];
       pdf_dir := pdf_dir fs; xml_dir := xml_dir fs |}
  else fs.

Definition portal_respond (X : Type) (ev : Event X) (p : Portal) (fs : FS)
    : Result X * Portal * FS :=
  match ev in Event T return Result T * Portal * FS with
  | StartChrome => (Val tt, p, fs)
  | Get _ => (Val tt, p, fs)
  | FindById id =>
      match find_row_by r_xml_id id (p_rows p) with
      | Some k => (Val (10 * k + 1)%nat, p, fs)
      | None =>
          match find_row_by r_pdf_id id (p_rows p) with
          | Some k => (Val (10 * k + 2)%nat, p, fs)
          | None => (Exc NoSuchElementException, p, fs)
          end
      end
  | FindAncestorRow h => (Val (10 * (h / 10) + 3)%nat, p, fs)
  | FindCells h => (Val (map (fun j => (10 * (h / 10) + j)%nat) [4; 5; 6]%nat), p, fs)
  | Text h =>
      (Val (if (h mod 10 =? 6)%nat
            then match p_rows p !! (h / 10)%nat with
                 | Some r => r_invoice r
                 | None => []
                 end
            else []), p, fs)
  | IsDisplayed _ => (Val true, p, fs)
  | IsEnabled _ => (Val true, p, fs)
  | Click h =>
      if (h mod 10 =? 7)%nat then (Val tt, p, fs) else (Val tt, p, landed p h fs)
  | WaitPresence _ =>
      (match p_rows p with [] => Exc TimeoutException | _ => Val tt end, p, fs)
  | FindAllCss css =>
      (Val (if name_eqb css (lit ".ui-paginator-next")
            then handles 7 (length (p_next p))
            else handles 1 (length (p_rows p))), p, fs)
  | GetAttribute h name =>
      (Val (if (h mod 10 =? 7)%nat
            then match p_next p !! (h / 10)%nat with Some c => c | None => None end
            else match p_rows p !! (h / 10)%nat with
                 | Some r => r_xml_id r
                 | None => None
                 end), p, fs)
  | Quit => (p_quit p, p, fs)
  | Sleep _ => (Val tt, p, fs)
  end.

#[export] Instance portal_selenium : Selenium Portal := portal_respond.

Definition empty_fs : FS := {| temp_dir := []; pdf_dir := ∅; xml_dir := ∅ |}.

(** A row as the portal renders it. *)
Definition portal_row (index : N) (invoice : string) : PortalRow :=
  {| r_xml_id := Some (link_id index "lnkXml");
     r_pdf_id := Some (link_id index "lnkPdf");
     r_invoice := lit invoice |}.

(** The operator's lines. *)
Definition typed (lines : list string) : list (Result (list N)) :=
  map (fun s => Val (lit s)) lines.

Definition start_world (p : Portal) (fs : FS) (stdin : list (Result (list N)))
    : World Portal :=
  {| w_env := p; w_fs := fs; w_clock := 0; w_stdin := stdin; w_driver := false |}.

Section Computations.
Context {E : Type}.

(** Every action of every trace of [c] satisfies [P]. *)
Definition emits {A : Type} (P : Action -> Prop) (c : M E A) : Prop :=
  forall w, Forall P (trace (c w)).

(** [c] always ends. *)
Definition total {A : Type} (c : M E A) : Prop :=
  forall w, outcome (c w) <> Div.

(** No exception of class [Exception] leaves [c]. *)
Definition guarded {A : Type} (c : M E A) : Prop :=
  forall w e, outcome (c w) = Raised e -> is_Exception e = false.

(** [c] raises nothing. *)
Definition silent {A : Type} (c : M E A) : Prop :=
  forall w e, outcome (c w) <> Raised e.

End Computations.

(** *** Alphabets: the actions a method can add to the trace *)

Definition only_sleeps (a : Action) : Prop :=
  match a with
  | Do (Sleep _) _ => True
  | _ => False
  end.

(** The [id] attributes a trace was answered, in order. *)
Definition id_answers (t : list Action) : list (option (list N)) :=
  omap (fun a => match a with
                 | Do (GetAttribute _ _) (Val v) => Some v
                 | _ => None
                 end) t.

Definition asks_attribute (a : Action) : Prop :=
  match a with
  | Do (GetAttribute _ _) _ => True
  | _ => False
  end.

(** *** Names the collision loop tries *)

(** The [counter]-th name tried after [original_dest]. *)
Definition numbered (original_dest : list N) (counter : N) : list N :=
  path_stem original_dest ++ lit "_" ++ dec counter ++ path_suffix original_dest.

(** *** The file system before and after *)

#[export] Instance Category_eq_dec : EqDecision Category.
Proof. solve_decision. Defined.

(** Every file of the category folders is still there, unchanged. *)
Definition preserves (fs fs' : FS) : Prop :=
  forall cat name d, dest_dir fs cat !! name = Some d -> dest_dir fs' cat !! name = Some d.

Definition names_of (dir : list Entry) : list (list N) := map e_name dir.

(** The files a trace announces as saved, in order. *)
Definition saved (t : list Action) : list (Category * list N) :=
  omap (fun a => match a with Out (MSaved cat name) => Some (cat, name) | _ => None end) t.

Definition only_saved (a : Action) : Prop :=
  match a with
  | Out (MSaved _ _) => True
  | _ => False
  end.

(** ** Scenarios *)

Definition idle_portal : Portal :=
  {| p_rows := []; p_next := []; p_lands := false; p_mtime := 0; p_quit := Val tt |}.

Definition download (name : string) (movable : bool) (data : nat) : Entry :=
  {| e_name := lit name; e_is_file := true; e_mtime := Some 0%Z;
     e_movable := movable; e_data := data |}.


(** Two files have just been downloaded; the second cannot be moved. *)
Definition locked_world : World Portal :=
  start_world idle_portal
    {| temp_dir := [download "a.xml" true 7; download "b.pdf" false 8];
       pdf_dir := ∅; xml_dir := ∅ |}
    [].


(** *** Pagination *)

(** The characters that separate the tokens of a [class] attribute. *)
Definition html_space (c : N) : Prop := c = 32 \/ c = 9 \/ c = 10 \/ c = 12 \/ c = 13.

(** [token] is one of the tokens of the attribute [classes]. *)
Definition carries_token (token classes : list N) : Prop :=
  exists pre post,
    classes = pre ++ token ++ post /\
    (pre = [] \/ exists p c, pre = p ++ [c] /\ html_space c) /\
    (post = [] \/ exists c q, post = c :: q /\ html_space c).

(** The elements a trace clicks, in order. *)
Definition clicks (t : list Action) : list nat :=
  omap (fun a => match a with Do (Click e) _ => Some e | _ => None end) t.

(** What the reads of attributes in a trace were answered, in order. *)
Definition class_answers (t : list Action) : list (Result (option (list N))) :=
  omap (fun a => match a with Do (GetAttribute _ _) r => Some r | _ => None end) t.

(** The answer is a class attribute with the disabled marker among its
    tokens. *)
Definition disabled_answer (r : Result (option (list N))) : Prop :=
  exists classes, r = Val (Some classes) /\ carries_token disabled_class classes.

(** [attr or ""] *)
Definition classes_of (attr : option (list N)) : list N :=
  match attr with Some s => s | None => [] end.

(** Every click comes right after the clicked element's class was read and
    found without the disabled marker. *)
Definition click_guarded (t : list Action) : Prop :=
  forall pre e res post,
    t = pre ++ Do (Click e) res :: post ->
    exists pre' attr,
      pre = pre' ++ [Do (GetAttribute e (lit "class")) (Val attr)] /\
      contains disabled_class (classes_of attr) = false.

Definition is_click (a : Action) : bool :=
  match a with Do (Click _) _ => true | _ => false end.

Definition next_css : list N := lit ".ui-paginator-next".


(** A page whose [next] controls are all disabled. *)
Definition last_page_portal : Portal :=
  {| p_rows := [];
     p_next := [Some (lit "ui-paginator-next ui-state-disabled");
                Some (lit "ui-paginator-next ui-state-disabled ui-corner-all")];
     p_lands := false; p_mtime := 0; p_quit := Val tt |}.

(** *** Marks: the skeleton of a trace *)

(** The actions of a trace that the statements are about. *)
Inductive Mark : Type :=
| KStart (ok : bool)
| KLogin
| KPage (page_count : N)
| KRow (number : N)
| KConfirmed (cat : Category)
| KMultiPrompt (index : N)
| KSaved (cat : Category) (name : list N)
| KOrganizeError
| KRowError
| KSummary (page_count : N)
| KInterrupted
| KUnexpected (e : exn)
| KQuit (r : Result unit).

Definition mark (a : Action) : option Mark :=
  match a with
  | Out (MProcessingPage n) => Some (KPage n)
  | Out (MDocument n _) => Some (KRow n)
  | Out (MLinkOk cat) => Some (KConfirmed cat)
  | Out (MSaved cat name) => Some (KSaved cat name)
  | Out (MOrganizeError _) => Some KOrganizeError
  | Out (MRowError _ _) => Some KRowError
  | Out (MPagesProcessed n) => Some (KSummary n)
  | Out MInterrupted => Some KInterrupted
  | Out (MUnexpected e) => Some (KUnexpected e)
  | In PLogin _ => Some KLogin
  | In (PMultiFile index) _ => Some (KMultiPrompt index)
  | Do StartChrome r => Some (KStart match r with Val _ => true | Exc _ => false end)
  | Do Quit r => Some (KQuit r)
  | _ => None
  end.

Definition marks (t : list Action) : list Mark := omap mark t.

Definition unmarked (a : Action) : Prop := mark a = None.

Definition saved_mark (p : Category * list N) : Mark := KSaved p.1 p.2.

(** How many marks of a kind a list holds. *)
Definition count (p : Mark -> bool) (ms : list Mark) : nat := length (List.filter p ms).

Definition is_row (k : Mark) : bool := match k with KRow _ => true | _ => false end.
Definition is_confirmed (k : Mark) : bool := match k with KConfirmed _ => true | _ => false end.
Definition is_multi (k : Mark) : bool := match k with KMultiPrompt _ => true | _ => false end.
Definition is_saved (k : Mark) : bool := match k with KSaved _ _ => true | _ => false end.
Definition is_organize_error (k : Mark) : bool :=
  match k with KOrganizeError => true | _ => false end.
Definition is_row_error (k : Mark) : bool := match k with KRowError => true | _ => false end.
Definition is_login (k : Mark) : bool := match k with KLogin => true | _ => false end.
Definition is_page (k : Mark) : bool := match k with KPage _ => true | _ => false end.
Definition is_quit (k : Mark) : bool := match k with KQuit _ => true | _ => false end.
Definition is_start (k : Mark) : bool := match k with KStart _ => true | _ => false end.
Definition is_started (k : Mark) : bool := match k with KStart ok => ok | _ => false end.
Definition is_first_row (k : Mark) : bool := match k with KRow n => n =? 1 | _ => false end.
Definition is_other_prompt (k : Mark) : bool :=
  match k with KMultiPrompt index => negb (index =? 0) | _ => false end.
Definition is_summary (k : Mark) : bool := match k with KSummary _ => true | _ => false end.
Definition is_interrupted (k : Mark) : bool := match k with KInterrupted => true | _ => false end.
Definition is_unexpected (k : Mark) : bool := match k with KUnexpected _ => true | _ => false end.

(** The marks a row leaves. *)
Definition row_mark (k : Mark) : bool :=
  is_row k || is_confirmed k || is_multi k || is_saved k || is_organize_error k
  || is_row_error k.

(** *** Postconditions *)

Section Postconditions.
Context {E : Type}.

(** [c], run from [w], ends in a way that satisfies [Q]. *)
Definition post {A : Type} (c : M E A) (w : World E)
    (Q : Outcome A -> World E -> list Action -> Prop) : Prop :=
  Q (outcome (c w)) (world (c w)) (trace (c w)).

(** Standard input and the driver flag are as they were. *)
Definition same_console (w w' : World E) : Prop :=
  w_stdin w' = w_stdin w /\ w_driver w' = w_driver w.

Definition keeps_console {A : Type} (c : M E A) : Prop :=
  forall w, same_console w (world (c w)).

(** The driver flag is as it was and standard input has not grown. *)
Definition console_shrinks (w w' : World E) : Prop :=
  w_driver w' = w_driver w /\ (length (w_stdin w') <= length (w_stdin w))%nat.

(** What a row leaves behind, in terms of its marks. *)
Definition row_post (index : N) (w : World E) (o : Outcome bool) (w' : World E)
    (t : list Action) : Prop :=
  let ms := marks t in
  console_shrinks w w' /\
  o <> Div /\
  (forall e, o = Raised e -> is_Exception e = false) /\
  (forall b, o = Ok b ->
     (b = true <->
      (0 < count is_confirmed ms)%nat /\ (0 < count is_saved ms)%nat /\
      count is_organize_error ms = 0%nat)) /\
  (count is_multi ms <= 1)%nat /\
  (index <> 0 -> count is_multi ms = 0%nat) /\
  (index = 0 -> (exists b, o = Ok b) -> count is_row_error ms = 0%nat ->
   count is_multi ms = 1%nat) /\
  (count is_row ms <= 1)%nat /\
  ((exists b, o = Ok b) -> count is_row ms = 1%nat) /\
  (count is_multi ms <= count is_first_row ms)%nat /\
  ((exists b, o = Ok b) -> count is_row_error ms = 0%nat ->
   count is_multi ms = count is_first_row ms) /\
  count is_other_prompt ms = 0%nat /\
  forallb row_mark ms = true.

End Postconditions.

(** *** Success of a row, as the specification words it *)






(** A page of rows whose links all deliver. *)
Definition page_of (rows : list PortalRow) : Portal :=
  {| p_rows := rows; p_next := []; p_lands := true; p_mtime := 0; p_quit := Val tt |}.

Definition start_url : list N := lit "https://srienlinea.sri.gob.ec/".

(** *** Pages *)

(** The marks the processing of pages leaves. *)
Definition loop_mark (k : Mark) : bool := row_mark k || is_page k.

(** The multi-file prompts of a list of marks all belong to a row of index
    0, at most one to each, and nothing but rows and pages is marked. *)
Definition tame (ms : list Mark) : Prop :=
  (count is_multi ms <= count is_first_row ms)%nat /\
  count is_other_prompt ms = 0%nat /\
  forallb loop_mark ms = true.

(** *** The run *)

(** The login prompt comes at most once, and pages, rows and multi-file
    prompts only after it; [seen] tells whether it has come. *)
Fixpoint login_then_pages (seen : bool) (ms : list Mark) : bool :=
  match ms with
  | [] => true
  | KLogin :: rest => negb seen && login_then_pages true rest
  | (KPage _ | KRow _ | KMultiPrompt _) :: rest => seen && login_then_pages seen rest
  | _ :: rest => login_then_pages seen rest
  end.

Section RunPost.
Context {E : Type}.

(** What a run leaves behind. *)
Definition run_post (w : World E) (o : Outcome unit) (w' : World E)
    (t : list Action) : Prop :=
  let ms := marks t in
  o <> Div /\
  (forall e, o = Raised e -> last ms = Some (KQuit (Exc e)) \/ e = SystemExit) /\
  (count is_summary ms + count is_interrupted ms + count is_unexpected ms <= 1)%nat /\
  ((exists x, o = Ok x) ->
   (count is_summary ms + count is_interrupted ms + count is_unexpected ms = 1)%nat) /\
  (count is_quit ms <= 1)%nat /\
  (count is_quit ms = 1%nat <-> w_driver w' = true) /\
  (count is_quit ms = 1%nat -> exists r, last ms = Some (KQuit r)) /\
  (w_driver w' = true <-> w_driver w = true \/ (0 < count is_started ms)%nat) /\
  (count is_login ms <= 1)%nat /\
  login_then_pages false ms = true /\
  (count is_multi ms <= count is_first_row ms)%nat /\
  count is_other_prompt ms = 0%nat.

End RunPost.

(** The operator confirms the login and stops after the first page. *)
Definition one_page : list (Result (list N)) := Val [] :: typed ["n"%string].

(** The operator confirms the login and the multi-file prompt, asks for the
    page again, confirms the prompt again and stops. *)
Definition retried_page : list (Result (list N)) :=
  Val [] :: Val [] :: typed ["r"%string] ++ Val [] :: typed ["n"%string].

(** A portal whose session cannot be closed. *)
Definition stuck_portal : Portal :=
  {| p_rows := []; p_next := []; p_lands := true; p_mtime := 0;
     p_quit := Exc WebDriverException |}.

(** * Properties *)

(** ** Strings *)

Lemma startswith_app (p r : str) : startswith p (p ++ r) = true.
Proof.
  induction p as [|a p IH]; simpl; [done|].
  by rewrite N.eqb_refl, IH.
Qed.

Lemma startswith_spec (p s : str) :
  startswith p s = true <-> exists r, s = p ++ r.
Proof.
  split.
  - revert s. induction p as [|a p IH]; intros s H; simpl in *.
    + by exists s.
    + destruct s as [|b s]; [done|].
      apply andb_true_iff in H as [Hab H].
      apply N.eqb_eq in Hab as ->.
      destruct (IH _ H) as [r ->]. by exists r.
  - intros [r ->]. apply startswith_app.
Qed.

Lemma startswith_long (p a r : str) :
  (length p <= length a)%nat -> startswith p (a ++ r) = startswith p a.
Proof.
  revert a. induction p as [|x p IH]; intros a Hlen; simpl in *.
  - by destruct a.
  - destruct a as [|y a]; simpl in *; [lia|].
    rewrite IH by lia. done.
Qed.

Lemma startswith_short (p a r : str) :
  (length a <= length p)%nat ->
  startswith p (a ++ r) = true -> startswith (drop (length a) p) r = true.
Proof.
  revert p. induction a as [|y a IH]; intros p Hlen H; simpl in *.
  - by rewrite drop_0.
  - destruct p as [|x p]; simpl in *; [lia|].
    apply andb_true_iff in H as [_ H]. apply IH; [lia|done].
Qed.

Lemma contains_cons_false (p : str) (c : N) (s : str) :
  contains p (c :: s) = false ->
  startswith p (c :: s) = false /\ contains p s = false.
Proof. simpl. intros H. by apply orb_false_iff in H. Qed.

Lemma contains_app_r (p a b : str) : contains p b = true -> contains p (a ++ b) = true.
Proof.
  intros H. induction a as [|c a IH]; simpl; [done|].
  change (contains p (a ++ b)) with (contains p (a ++ b)) in IH.
  rewrite IH. apply orb_true_r.
Qed.

Lemma contains_spec (p s : str) :
  contains p s = true <-> exists a b, s = a ++ p ++ b.
Proof.
  split.
  - induction s as [|c s IH]; simpl; intros H.
    + rewrite orb_false_r in H. apply startswith_spec in H as [r ->].
      by exists [], r.
    + apply orb_true_iff in H as [H|H].
      * apply startswith_spec in H as [r ->]. by exists [], r.
      * destruct (IH H) as (a & b & ->). by exists (c :: a), b.
  - intros (a & b & ->). apply contains_app_r.
    destruct (p ++ b) eqn:Heq; simpl.
    + destruct p; [done|discriminate].
    + rewrite <- Heq. by rewrite startswith_app.
Qed.

(** Skipping [k] characters of a match. *)
Lemma sub_literal_skip (pat repl x b : str) :
  sub_literal pat repl (length x) (x ++ b) = sub_literal pat repl O b.
Proof. induction x as [|c x IH]; simpl; [by destruct b|done]. Qed.

Lemma sub_literal_id (pat repl s : str) :
  contains pat s = false -> sub_literal pat repl O s = s.
Proof.
  induction s as [|c s IH]; [done|].
  intros H. apply contains_cons_false in H as [H1 H2].
  cbn [sub_literal]. rewrite H1. by rewrite IH.
Qed.

(** The label does not overlap itself: no match can start before one that
    is there and reach into it. *)
Lemma label_no_overlap (a b : str) :
  a <> [] -> startswith FacturasNumber a = false ->
  startswith FacturasNumber (a ++ FacturasNumber ++ b) = false.
Proof.
  intros Hne Ha.
  destruct (startswith FacturasNumber (a ++ FacturasNumber ++ b)) eqn:H; [|done].
  destruct (decide (length FacturasNumber <= length a)%nat) as [Hlen|Hlen].
  - rewrite startswith_long in H by done. congruence.
  - apply startswith_short in H; [|lia].
    destruct a as [|c0 a]; [done|]. exfalso.
    simpl in Hlen. clear Ha Hne.
    do 13 (destruct a as [|? a]; [by simpl in H|]).
    simpl in Hlen. lia.
Qed.

Lemma sub_label_first (a b : str) :
  contains FacturasNumber a = false ->
  sub_literal FacturasNumber Facturas_Number O (a ++ FacturasNumber ++ b)
  = a ++ Facturas_Number ++ sub_literal FacturasNumber Facturas_Number O b.
Proof.
  induction a as [|c a IH]; intros H.
  - change ([] ++ FacturasNumber ++ b) with (70 :: (lit "acturasNumber" ++ b)).
    cbn [sub_literal].
    change (70 :: (lit "acturasNumber" ++ b)) with (FacturasNumber ++ b).
    rewrite startswith_app.
    change (pred (length FacturasNumber)) with (length (lit "acturasNumber")).
    by rewrite sub_literal_skip.
  - apply contains_cons_false in H as [H1 H2].
    change ((c :: a) ++ FacturasNumber ++ b) with (c :: (a ++ FacturasNumber ++ b)).
    cbn [sub_literal].
    change (c :: (a ++ FacturasNumber ++ b)) with ((c :: a) ++ FacturasNumber ++ b).
    rewrite label_no_overlap by done.
    by rewrite IH.
Qed.

(** ** Decimal numerals *)

Lemma ascii_digit_mod (n : N) : ascii_digit (48 + n mod 10) = true.
Proof.
  unfold ascii_digit. pose proof (N.mod_upper_bound n 10 ltac:(done)) as H.
  revert H. generalize (n mod 10). intros d H.
  apply andb_true_iff. split; apply N.leb_le; lia.
Qed.

Lemma dec_go_digits (fuel : nat) (n : N) (acc : str) :
  Forall (fun c => ascii_digit c = true) acc ->
  Forall (fun c => ascii_digit c = true) (dec_go fuel n acc).
Proof.
  revert n acc. induction fuel as [|f IH]; intros n acc Hacc; simpl.
  - constructor; [apply ascii_digit_mod|done].
  - destruct (n <? 10).
    + constructor; [apply ascii_digit_mod|done].
    + apply IH. constructor; [apply ascii_digit_mod|done].
Qed.

Lemma dec_digits (n : N) : Forall (fun c => ascii_digit c = true) (dec n).
Proof. apply dec_go_digits. constructor. Qed.



Lemma ascii_digit_is_ascii (c : N) : ascii_digit c = true -> is_ascii c = true.
Proof.
  unfold ascii_digit, is_ascii. intros H.
  apply andb_true_iff in H as [_ H]. apply N.leb_le in H. apply N.ltb_lt. lia.
Qed.

Lemma pow10_fuel (n : N) : n < 10 ^ N.of_nat (S (N.to_nat (N.log2 n))).
Proof.
  rewrite Nat2N.inj_succ, N2Nat.id.
  destruct (decide (n = 0)) as [->|Hn].
  - done.
  - pose proof (N.log2_spec n ltac:(lia)) as [_ Hlt].
    eapply N.lt_le_trans; [exact Hlt|].
    apply N.pow_le_mono_l. lia.
Qed.

Section StringFacts.
Context {U : Unicode}.

Lemma decimal_value_digit (n : N) :
  decimal_value (48 + n mod 10) = Some (n mod 10).
Proof.
  unfold decimal_value.
  rewrite (ascii_digit_is_ascii _ (ascii_digit_mod n)), ascii_digit_mod.
  f_equal. generalize (n mod 10). intros d. lia.
Qed.

Lemma int_digits_dec_go (fuel : nat) (n : N) (acc : str) :
  n < 10 ^ N.of_nat (S fuel) ->
  int_digits 0 (dec_go fuel n acc) = int_digits n acc.
Proof.
  revert n acc. induction fuel as [|f IH]; intros n acc Hn.
  - change (10 ^ N.of_nat 1) with 10 in Hn.
    cbn [dec_go int_digits]. rewrite decimal_value_digit.
    rewrite N.mod_small by done. by rewrite N.mul_0_r.
  - cbn [dec_go]. destruct (n <? 10) eqn:Hlt.
    + apply N.ltb_lt in Hlt. cbn [int_digits]. rewrite decimal_value_digit.
      rewrite N.mod_small by done. by rewrite N.mul_0_r.
    + rewrite IH.
      * cbn [int_digits]. rewrite decimal_value_digit.
        f_equal. symmetry. apply N.div_mod. done.
      * rewrite Nat2N.inj_succ, N.pow_succ_r' in Hn.
        apply N.Div0.div_lt_upper_bound. done.
Qed.

(** [int(str(n)) == n] *)
Lemma int_of_str_dec (n : N) : int_of_str (dec n) = Some n.
Proof.
  unfold int_of_str, dec. rewrite int_digits_dec_go by apply pow10_fuel. done.
Qed.


End StringFacts.

(** [str] of an integer is injective, whatever the character tables. *)
Lemma dec_inj (n m : N) : dec n = dec m -> n = m.
Proof.
  intros H. pose proof (@int_of_str_dec ascii_only n) as Hn.
  rewrite H, int_of_str_dec in Hn. congruence.
Qed.

(** ** Splitting *)


Lemma split_no_sep (sep : N) (a : str) :
  Forall (fun c => c <> sep) a -> split sep a = [a].
Proof.
  induction 1 as [|c a Hc Ha IH]; simpl; [done|].
  apply N.eqb_neq in Hc. by rewrite Hc, IH.
Qed.

Lemma split_nonempty (sep : N) (s : str) : split sep s <> [].
Proof.
  destruct s as [|c s]; simpl; [done|].
  destruct (c =? sep); [done|]. by destruct (split sep s).
Qed.

(** ** The clean name (lines 91-95) *)

Section CleanName.
Context {U : Unicode}.

Lemma allowed_char_safe (c : N) : allowed_char c = true <-> safe_char c.
Proof.
  unfold allowed_char, safe_char.
  rewrite !orb_true_iff, !N.eqb_eq. tauto.
Qed.

Lemma lstrip_Forall (P : N -> Prop) (s : str) : Forall P s -> Forall P (lstrip s).
Proof.
  induction 1 as [|c s Hc Hs IH]; simpl; [constructor|].
  destruct (isspace c); [done|by constructor].
Qed.

Lemma strip_Forall (P : N -> Prop) (s : str) : Forall P s -> Forall P (strip s).
Proof.
  intros H. unfold strip, rstrip.
  apply Forall_rev, lstrip_Forall, Forall_rev, lstrip_Forall, H.
Qed.

Lemma sanitize_safe (factura_number : str) : Forall safe_char (sanitize factura_number).
Proof.
  unfold sanitize. apply strip_Forall, Forall_forall. intros c Hc.
  apply list_elem_of_In, filter_In in Hc as [_ Hc]. by apply allowed_char_safe.
Qed.

Lemma sub_literal_Forall (P : N -> Prop) (pat repl : str) (k : nat) (s : str) :
  Forall P repl -> Forall P s -> Forall P (sub_literal pat repl k s).
Proof.
  intros Hrepl Hs. revert k.
  induction Hs as [|c s Hc Hs IH]; intros k; [constructor|].
  cbn [sub_literal]. destruct k as [|k]; [|apply IH].
  destruct (startswith pat (c :: s)).
  - apply Forall_app. split; [done|apply IH].
  - constructor; [done|apply IH].
Qed.

Lemma safe_of_alnum_ascii (c : N) :
  is_ascii c = true -> ascii_digit c || ascii_upper c || ascii_lower c = true ->
  safe_char c.
Proof. intros Ha H. left. unfold isalnum. by rewrite Ha. Qed.

Lemma space_label_safe (s : str) : Forall safe_char s -> Forall safe_char (space_label s).
Proof.
  intros H. unfold space_label. apply sub_literal_Forall; [|done].
  repeat (constructor; [first [by right; right; right
                              | by apply safe_of_alnum_ascii]|]).
  constructor.
Qed.

Lemma dec_safe (n : N) : Forall safe_char (dec n).
Proof.
  eapply Forall_impl; [apply dec_digits|].
  intros c Hc. apply safe_of_alnum_ascii; [by apply ascii_digit_is_ascii|].
  by rewrite Hc.
Qed.

Lemma dec_Z_safe (z : Z) : Forall safe_char (dec_Z z).
Proof.
  unfold dec_Z. destruct (z <? 0)%Z; [|apply dec_safe].
  apply Forall_app. split; [|apply dec_safe].
  constructor; [by right; left|constructor].
Qed.

Lemma placeholder_safe (z : Z) : Forall safe_char (lit "documento_" ++ dec_Z z).
Proof.
  apply Forall_app. split; [|apply dec_Z_safe].
  repeat (constructor; [first [by right; right; left
                              | by apply safe_of_alnum_ascii]|]).
  constructor.
Qed.

Lemma space_label_nil (s : str) : is_nil (space_label s) = is_nil s.
Proof.
  destruct s as [|c s]; [done|].
  unfold space_label. cbn [sub_literal].
  by destruct (startswith _ _).
Qed.

(** C2. The sanitized invoice text holds only alphanumeric characters,
    hyphens, underscores and spaces, and so does the name the organizer
    goes on to use, which is never empty: it is the sanitized text with the
    label spaced, and the placeholder [documento_<seconds>] exactly when
    sanitization left nothing. *)
Theorem clean_name_safe {E : Type} (factura_number : str) (w : World E) :
  Forall safe_char (sanitize factura_number) /\
  exists clean_name : str,
    outcome (clean_name_of factura_number w) = Ok clean_name /\
    world (clean_name_of factura_number w) = w /\
    clean_name <> [] /\
    Forall safe_char clean_name /\
    clean_name =
      (if is_nil (sanitize factura_number)
       then lit "documento_" ++ dec_Z (int_seconds (w_clock w))
       else space_label (sanitize factura_number)).
Proof.
  split; [apply sanitize_safe|].
  unfold clean_name_of. rewrite space_label_nil.
  destruct (is_nil (sanitize factura_number)) eqn:Hnil.
  - eexists. split; [reflexivity|]. split; [done|]. split; [done|]. split; [|done].
    apply placeholder_safe.
  - eexists. split; [reflexivity|]. split; [done|]. split; [|split; [|done]].
    + intros Heq. pose proof (space_label_nil (sanitize factura_number)) as Hn.
      rewrite Heq, Hnil in Hn. done.
    + apply space_label_safe, sanitize_safe.
Qed.

End CleanName.

(** ** The label spacing (line 93) *)

(** C8. A string without the adjacency [FacturasNumber] is returned as it
    is, and where the adjacency first occurs it becomes [Facturas Number],
    the rest of the string being treated the same way. *)
Theorem label_spacing (a b : str) :
  contains (lit "FacturasNumber") a = false ->
  space_label a = a /\
  space_label (a ++ lit "FacturasNumber" ++ b)
  = a ++ lit "Facturas Number" ++ space_label b.
Proof.
  intros H. split.
  - by apply sub_literal_id.
  - by apply sub_label_first.
Qed.

Lemma label_spacing_witness :
  space_label (lit "Lista de ") = lit "Lista de " /\
  space_label (lit "Lista de " ++ lit "FacturasNumber" ++ lit " 001-002")
  = lit "Lista de " ++ lit "Facturas Number" ++ space_label (lit " 001-002").
Proof. apply (label_spacing (lit "Lista de ") (lit " 001-002")). reflexivity. Defined.

(** ** Reasoning about computations *)

Section Kit.
Context {E : Type}.

Lemma emits_weaken {A : Type} (P Q : Action -> Prop) (c : M E A) :
  (forall a, P a -> Q a) -> emits P c -> emits Q c.
Proof. intros HPQ Hc w. eapply Forall_impl; [apply Hc|done]. Qed.

Lemma emits_ret {A : Type} P (a : A) : emits P (ret (E:=E) a).
Proof. intros w. constructor. Qed.

Lemma emits_raise {A : Type} P e : emits P (raise (E:=E) (A:=A) e).
Proof. intros w. constructor. Qed.

Lemma emits_diverge {A : Type} P : emits P (diverge (E:=E) (A:=A)).
Proof. intros w. constructor. Qed.

Lemma emits_bind {A B : Type} P (c : M E A) (k : A -> M E B) :
  emits P c -> (forall a, emits P (k a)) -> emits P (bind c k).
Proof.
  intros Hc Hk w. unfold bind. specialize (Hc w).
  destruct (outcome (c w)) as [a|e|]; simpl; [|done|done].
  apply Forall_app. split; [done|apply Hk].
Qed.

Lemma emits_try_except {A : Type} P (c : M E A) h :
  emits P c -> (forall e k, h e = Some k -> emits P k) -> emits P (try_except c h).
Proof.
  intros Hc Hh w. unfold try_except. specialize (Hc w).
  destruct (outcome (c w)) as [a|e|]; [done| |done].
  destruct (h e) as [k|] eqn:Hk; [|done]. simpl.
  apply Forall_app. split; [done|]. by eapply Hh.
Qed.

Lemma emits_try_finally {A : Type} P (c : M E A) f :
  emits P c -> emits P f -> emits P (try_finally c f).
Proof.
  intros Hc Hf w. unfold try_finally. specialize (Hc w).
  destruct (outcome (c w)) as [a|e|]; simpl; [| |done];
    (apply Forall_app; split; [done|apply Hf]).
Qed.

Lemma emits_say P m : P (Out m) -> emits P (say (E:=E) m).
Proof. intros H w. by constructor. Qed.

Lemma emits_input P p : (forall r, P (In p r)) -> emits P (input (E:=E) p).
Proof.
  intros H w. unfold input. destruct (w_stdin w); simpl; by constructor.
Qed.

Lemma emits_time_time P : emits P (time_time (E:=E)).
Proof. intros w. constructor. Qed.

Lemma emits_get_fs P : emits P (get_fs (E:=E)).
Proof. intros w. constructor. Qed.

Lemma emits_put_fs P fs : emits P (put_fs (E:=E) fs).
Proof. intros w. constructor. Qed.

Lemma emits_get_driver P : emits P (get_driver (E:=E)).
Proof. intros w. constructor. Qed.

Lemma emits_set_driver P d : emits P (set_driver (E:=E) d).
Proof. intros w. constructor. Qed.

Lemma emits_stdin_left P : emits P (stdin_left (E:=E)).
Proof. intros w. constructor. Qed.

Lemma total_ret {A : Type} (a : A) : total (ret (E:=E) a).
Proof. by intros w. Qed.

Lemma total_raise {A : Type} e : total (raise (E:=E) (A:=A) e).
Proof. by intros w. Qed.

Lemma total_bind {A B : Type} (c : M E A) (k : A -> M E B) :
  total c -> (forall a, total (k a)) -> total (bind c k).
Proof.
  intros Hc Hk w. unfold bind. specialize (Hc w).
  destruct (outcome (c w)) as [a|e|]; simpl; [apply Hk|done|done].
Qed.

Lemma total_try_except {A : Type} (c : M E A) h :
  total c -> (forall e k, h e = Some k -> total k) -> total (try_except c h).
Proof.
  intros Hc Hh w. unfold try_except. specialize (Hc w).
  destruct (outcome (c w)) as [a|e|] eqn:Ho; [by rewrite Ho| |done].
  destruct (h e) as [k|] eqn:Hk; [|by rewrite Ho]. simpl. by eapply Hh.
Qed.

Lemma total_try_finally {A : Type} (c : M E A) f :
  total c -> total f -> total (try_finally c f).
Proof.
  intros Hc Hf w. unfold try_finally. specialize (Hc w).
  destruct (outcome (c w)) as [a|e|]; simpl; [| |done];
    (specialize (Hf (world (c w))); by destruct (outcome (f (world (c w))))).
Qed.

Lemma total_say m : total (say (E:=E) m).
Proof. by intros w. Qed.

Lemma total_input p : total (input (E:=E) p).
Proof.
  intros w. unfold input. destruct (w_stdin w) as [|[s|e] rest]; by simpl.
Qed.

Lemma total_time_time : total (time_time (E:=E)).
Proof. by intros w. Qed.

Lemma total_get_fs : total (get_fs (E:=E)).
Proof. by intros w. Qed.

Lemma total_put_fs fs : total (put_fs (E:=E) fs).
Proof. by intros w. Qed.

Lemma total_get_driver : total (get_driver (E:=E)).
Proof. by intros w. Qed.

Lemma total_set_driver d : total (set_driver (E:=E) d).
Proof. by intros w. Qed.

Lemma total_stdin_left : total (stdin_left (E:=E)).
Proof. by intros w. Qed.

Lemma silent_ret {A : Type} (a : A) : silent (ret (E:=E) a).
Proof. by intros w e. Qed.

Lemma silent_say m : silent (say (E:=E) m).
Proof. by intros w e. Qed.

Lemma silent_bind {A B : Type} (c : M E A) (k : A -> M E B) :
  silent c -> (forall a, silent (k a)) -> silent (bind c k).
Proof.
  intros Hc Hk w e. unfold bind. specialize (Hc w).
  destruct (outcome (c w)) as [a|e'|]; simpl; [apply Hk| |done].
  by destruct (Hc e').
Qed.

Lemma silent_guarded {A : Type} (c : M E A) : silent c -> guarded c.
Proof. intros Hc w e H. by destruct (Hc w e). Qed.

(** A [try] whose clauses take every [Exception] and raise none lets only
    the other exceptions out. *)
Lemma guarded_try_except {A : Type} (c : M E A) h :
  (forall e, is_Exception e = true -> exists k, h e = Some k /\ guarded k) ->
  (forall e k, h e = Some k -> guarded k) ->
  guarded (try_except c h).
Proof.
  intros Hall Hh w e. unfold try_except.
  destruct (outcome (c w)) as [a|e'|] eqn:Ho; [by rewrite Ho| |by rewrite Ho].
  destruct (h e') as [k|] eqn:Hk.
  - simpl. by eapply Hh.
  - rewrite Ho. intros [= ->].
    destruct (is_Exception e) eqn:He; [|done].
    destruct (Hall e He) as (k & Hk' & _). congruence.
Qed.

(** One step of a sequence. *)
Lemma bind_run {A B : Type} (c : M E A) (k : A -> M E B) (w : World E) :
  bind c k w
  = match outcome (c w) with
    | Ok a => after (trace (c w)) (k a (world (c w)))
    | Raised e => {| outcome := Raised e; world := world (c w); trace := trace (c w) |}
    | Div => {| outcome := Div; world := world (c w); trace := trace (c w) |}
    end.
Proof. reflexivity. Qed.

Context {Sel : Selenium E}.

Lemma call_run {X : Type} (ev : Event X) (w : World E) (r : Result X) (env : E) (fs : FS) :
  respond X ev (w_env w) (w_fs w) = (r, env, fs) ->
  call ev w
  = {| outcome := match r with Val x => Ok x | Exc e => Raised e end;
       world := {| w_env := env; w_fs := fs; w_clock := w_clock w;
                   w_stdin := w_stdin w; w_driver := w_driver w |};
       trace := [Do ev r] |}.
Proof. intros H. unfold call. by rewrite H. Qed.

Lemma sleep_run (ms : N) (w : World E) (env : E) (fs : FS) :
  respond unit (Sleep ms) (w_env w) (w_fs w) = (Val tt, env, fs) ->
  sleep ms w
  = {| outcome := Ok tt;
       world := {| w_env := env; w_fs := fs; w_clock := (w_clock w + Z.of_N ms)%Z;
                   w_stdin := w_stdin w; w_driver := w_driver w |};
       trace := [Do (Sleep ms) (Val tt)] |}.
Proof. intros H. unfold sleep. rewrite bind_run, (call_run _ _ _ _ _ H). reflexivity. Qed.

Lemma sleep_run_exc (ms : N) (w : World E) (e : exn) (env : E) (fs : FS) :
  respond unit (Sleep ms) (w_env w) (w_fs w) = (Exc e, env, fs) ->
  sleep ms w
  = {| outcome := Raised e;
       world := {| w_env := env; w_fs := fs; w_clock := w_clock w;
                   w_stdin := w_stdin w; w_driver := w_driver w |};
       trace := [Do (Sleep ms) (Exc e)] |}.
Proof. intros H. unfold sleep. rewrite bind_run, (call_run _ _ _ _ _ H). reflexivity. Qed.

Lemma emits_call {X : Type} P (ev : Event X) :
  (forall r, P (Do ev r)) -> emits P (call ev).
Proof.
  intros H w. unfold call.
  destruct (respond X ev (w_env w) (w_fs w)) as [[r env] fs]. simpl.
  by constructor.
Qed.

Lemma emits_sleep P ms : (forall r, P (Do (Sleep ms) r)) -> emits P (sleep ms).
Proof.
  intros H. apply emits_bind; [by apply emits_call|].
  intros _ w. constructor.
Qed.

Lemma total_call {X : Type} (ev : Event X) : total (call ev).
Proof.
  intros w. unfold call.
  destruct (respond X ev (w_env w) (w_fs w)) as [[[x|e] env] fs]; by simpl.
Qed.

Lemma total_sleep ms : total (sleep ms).
Proof. apply total_bind; [apply total_call|]. by intros _ w. Qed.

End Kit.

(** ** wait_for_download_complete *)

Section Wait.
Context {E : Type} {Sel : Selenium E}.

Lemma wait_loop_emits (fuel : nat) (start_time timeout : Z) :
  emits only_sleeps (wait_loop fuel start_time timeout).
Proof.
  induction fuel as [|f IH]; cbn [wait_loop].
  - apply emits_bind; [apply emits_time_time|]. intros now.
    destruct (now - start_time <? timeout)%Z; [|apply emits_ret].
    apply emits_bind; [apply emits_get_fs|]. intros fs.
    destruct (is_nil _).
    + apply emits_bind; [by apply emits_sleep|]. intros _. apply emits_ret.
    + apply emits_bind; [by apply emits_sleep|]. intros _. apply emits_diverge.
  - apply emits_bind; [apply emits_time_time|]. intros now.
    destruct (now - start_time <? timeout)%Z; [|apply emits_ret].
    apply emits_bind; [apply emits_get_fs|]. intros fs.
    destruct (is_nil _).
    + apply emits_bind; [by apply emits_sleep|]. intros _. apply emits_ret.
    + apply emits_bind; [by apply emits_sleep|]. intros _. apply IH.
Qed.

Lemma wait_emits : emits only_sleeps wait_for_download_complete.
Proof.
  apply emits_bind; [apply emits_time_time|]. intros t. apply wait_loop_emits.
Qed.

(** What [sleep] leaves: the clock has advanced by its length. *)
Lemma sleep_clock (ms : N) (w : World E) :
  outcome (sleep ms w) = Ok tt -> w_clock (world (sleep ms w)) = (w_clock w + Z.of_N ms)%Z.
Proof.
  unfold sleep, bind, call.
  destruct (respond unit (Sleep ms) (w_env w) (w_fs w)) as [[[x|e] env] fs]; simpl; done.
Qed.

Lemma sleep_outcome (ms : N) (w : World E) :
  outcome (sleep ms w) <> Div /\ (forall x, outcome (sleep ms w) = Ok x -> x = tt).
Proof.
  split; [apply total_sleep|]. by intros [].
Qed.

(** The loop ends when the rounds it is granted cover the time left. *)
Lemma wait_loop_total (fuel : nat) (start_time timeout : Z) (w : World E) :
  (timeout - (w_clock w - start_time) <= 250 * Z.of_nat fuel)%Z ->
  outcome (wait_loop fuel start_time timeout w) <> Div.
Proof.
  revert w. induction fuel as [|f IH]; intros w Hleft.
  - cbn [wait_loop]. unfold bind at 1. cbn [time_time outcome world trace after].
    destruct (w_clock w - start_time <? timeout)%Z eqn:Hlt; [|done].
    apply Z.ltb_lt in Hlt. lia.
  - cbn [wait_loop]. unfold bind at 1. cbn [time_time outcome world trace after].
    destruct (w_clock w - start_time <? timeout)%Z eqn:Hlt; [|done].
    unfold bind at 1. cbn [get_fs outcome world trace after].
    destruct (is_nil _).
    + unfold bind at 1.
      destruct (outcome (sleep 15 w)) eqn:Hs; cbn; try done.
      by apply total_sleep in Hs.
    + unfold bind at 1.
      pose proof (sleep_clock 250 w) as Hc.
      destruct (outcome (sleep 250 w)) as [[]| |] eqn:Hs; cbn [outcome after]; try done.
      * apply IH. rewrite Hc by done. lia.
      * by apply total_sleep in Hs.
Qed.

Lemma wait_total : total wait_for_download_complete.
Proof.
  intros w. unfold wait_for_download_complete, bind at 1.
  cbn [time_time outcome world trace after].
  apply wait_loop_total. lia.
Qed.

End Wait.

(** The first poll, when it finds no marker and the sleep is not cut. *)
Lemma wait_loop_first_poll {E : Type} {Sel : Selenium E}
    (fuel : nat) (start_time timeout : Z) (w : World E) (env : E) (fs : FS) :
  (w_clock w - start_time <? timeout)%Z = true ->
  glob_crdownload (w_fs w) = [] ->
  respond unit (Sleep 15) (w_env w) (w_fs w) = (Val tt, env, fs) ->
  wait_loop fuel start_time timeout w
  = {| outcome := Ok true;
       world := {| w_env := env; w_fs := fs; w_clock := (w_clock w + 15)%Z;
                   w_stdin := w_stdin w; w_driver := w_driver w |};
       trace := [Do (Sleep 15) (Val tt)] |}.
Proof.
  intros Hlt Hglob Hr.
  destruct fuel as [|f]; cbn [wait_loop];
    rewrite bind_run; cbn [time_time outcome world trace];
    rewrite Hlt, bind_run; cbn [get_fs outcome world trace];
    rewrite Hglob; cbn [is_nil];
    rewrite bind_run, (sleep_run _ _ _ _ Hr); reflexivity.
Qed.

Lemma wait_first_poll {E : Type} {Sel : Selenium E} (w : World E) (env : E) (fs : FS) :
  glob_crdownload (w_fs w) = [] ->
  respond unit (Sleep 15) (w_env w) (w_fs w) = (Val tt, env, fs) ->
  wait_for_download_complete w
  = {| outcome := Ok true;
       world := {| w_env := env; w_fs := fs; w_clock := (w_clock w + 15)%Z;
                   w_stdin := w_stdin w; w_driver := w_driver w |};
       trace := [Do (Sleep 15) (Val tt)] |}.
Proof.
  intros Hglob Hr. unfold wait_for_download_complete. rewrite bind_run.
  cbn [time_time outcome world trace].
  pose proof (wait_loop_first_poll 60 (w_clock w) 15000 w env fs) as H.
  rewrite Z.sub_diag in H. specialize (H eq_refl Hglob Hr).
  rewrite H. reflexivity.
Qed.


(** C9. When the first poll finds no [*.crdownload] marker, the wait
    returns [True] after that single poll, having done nothing but sleep its
    15 ms, whether or not a download was ever started: from an empty
    download folder that stays empty it returns [True] all the same. *)
Theorem wait_true_without_marker {E : Type} {Sel : Selenium E} (w : World E) :
  glob_crdownload (w_fs w) = [] ->
  (respond unit (Sleep 15) (w_env w) (w_fs w)).1.1 = Val tt ->
  outcome (wait_for_download_complete w) = Ok true /\
  trace (wait_for_download_complete w) = [Do (Sleep 15) (Val tt)] /\
  w_fs (world (wait_for_download_complete w))
  = (respond unit (Sleep 15) (w_env w) (w_fs w)).2 /\
  (temp_dir (w_fs w) = [] ->
   (respond unit (Sleep 15) (w_env w) (w_fs w)).2 = w_fs w ->
   temp_dir (w_fs (world (wait_for_download_complete w))) = []).
Proof.
  intros Hglob Hsleep.
  destruct (respond unit (Sleep 15) (w_env w) (w_fs w)) as [[r env] fs] eqn:Hr.
  simpl in Hsleep. subst r.
  rewrite (wait_first_poll w env fs Hglob Hr). simpl.
  repeat split. intros Hempty ->. exact Hempty.
Qed.

Lemma wait_true_without_marker_witness :
  let w := start_world idle_portal empty_fs [] in
  temp_dir (w_fs w) = [] /\
  outcome (wait_for_download_complete w) = Ok true /\
  temp_dir (w_fs (world (wait_for_download_complete w))) = [].
Proof.
  intros w.
  destruct (wait_true_without_marker w) as (H1 & _ & _ & H4);
    [reflexivity|reflexivity|].
  split; [reflexivity|]. split; [exact H1|]. apply H4; reflexivity.
Defined.

(** ** Path names *)





Lemma with_stem_numbered (original_dest : str) (counter : N) :
  with_stem original_dest (path_stem original_dest ++ lit "_" ++ dec counter)
  = numbered original_dest counter.
Proof. unfold with_stem, numbered. by rewrite <- !app_assoc. Qed.

Lemma numbered_inj (original_dest : str) (i j : N) :
  numbered original_dest i = numbered original_dest j -> i = j.
Proof.
  unfold numbered. intros H.
  apply app_inv_head in H. apply app_inv_head in H.
  apply app_inv_tail in H. by apply dec_inj.
Qed.

(** ** The collision loop (lines 100-104) *)

Lemma exists_in_true (dir : gmap (list N) nat) (name : str) :
  exists_in dir name = true <-> is_Some (dir !! name).
Proof. unfold exists_in. apply bool_decide_eq_true. Qed.

Lemma exists_in_false (dir : gmap (list N) nat) (name : str) :
  exists_in dir name = false <-> dir !! name = None.
Proof.
  unfold exists_in. rewrite bool_decide_eq_false. symmetry. apply eq_None_not_Some.
Qed.

(** What the loop returns is free, and it is the first free name in the
    order tried: [dest_path], then the numbered names from [counter] on. *)
Lemma free_name_first (fuel : nat) (dir : gmap (list N) nat)
    (original_dest dest_path : str) (counter : N) (d : str) :
  free_name fuel dir original_dest dest_path counter = Some d ->
  dir !! d = None /\
  (d = dest_path \/
   is_Some (dir !! dest_path) /\
   exists j, counter <= j /\ d = numbered original_dest j /\
     forall i, counter <= i < j -> is_Some (dir !! numbered original_dest i)).
Proof.
  revert dest_path counter.
  induction fuel as [|f IH]; intros dest_path counter; cbn [free_name];
    destruct (exists_in dir dest_path) eqn:Hex.
  - done.
  - intros [= <-]. split; [by apply exists_in_false|by left].
  - rewrite with_stem_numbered. intros H.
    destruct (IH _ _ H) as [Hfree Hd]. split; [done|]. right.
    split; [by apply exists_in_true|].
    destruct Hd as [-> | (Hc & j & Hj & -> & Hall)].
    + exists counter. split; [lia|]. split; [done|]. intros i Hi. lia.
    + exists j. split; [lia|]. split; [done|]. intros i Hi.
      destruct (decide (i = counter)) as [->|Hne]; [done|]. apply Hall. lia.
  - intros [= <-]. split; [by apply exists_in_false|by left].
Qed.

(** When the loop gives up, every name it tried is taken. *)
Lemma free_name_none (fuel : nat) (dir : gmap (list N) nat)
    (original_dest dest_path : str) (counter : N) :
  free_name fuel dir original_dest dest_path counter = None ->
  forall i : nat, (i < fuel)%nat ->
    is_Some (dir !! numbered original_dest (counter + N.of_nat i)).
Proof.
  revert dest_path counter.
  induction fuel as [|f IH]; intros dest_path counter; cbn [free_name];
    destruct (exists_in dir dest_path) eqn:Hex; try done.
  - intros _ i Hi. lia.
  - rewrite with_stem_numbered. intros H i Hi.
    destruct i as [|i].
    + rewrite N.add_0_r.
      destruct f as [|f]; cbn [free_name] in H;
        destruct (exists_in dir (numbered original_dest counter)) eqn:Hex'; try done;
        by apply exists_in_true.
    + replace (counter + N.of_nat (S i)) with (counter + 1 + N.of_nat i) by lia.
      eapply IH; [exact H|lia].
Qed.

(** A folder of [n] names cannot hold [n + 1] numbered ones: the loop finds
    a free name within [n + 1] rounds. *)
Lemma free_name_total (dir : gmap (list N) nat) (original_dest dest_path : str) (counter : N) :
  free_name (S (size dir)) dir original_dest dest_path counter <> None.
Proof.
  intros Hnone.
  pose proof (free_name_none _ _ _ _ _ Hnone) as Hall.
  set (names := map (fun i : nat => numbered original_dest (counter + N.of_nat i))
                    (seq 0 (S (size dir)))).
  assert (NoDup names) as Hnd.
  { apply NoDup_fmap_2_strong; [|apply NoDup_seq].
    intros i j _ _ Hij. apply numbered_inj in Hij. lia. }
  assert (list_to_set names ⊆ dom dir) as Hsub.
  { intros x Hx. apply elem_of_list_to_set in Hx.
    apply list_elem_of_fmap in Hx as (i & -> & Hi).
    apply elem_of_seq in Hi. apply elem_of_dom. apply Hall. lia. }
  apply subseteq_size in Hsub.
  rewrite size_list_to_set, size_dom in Hsub by done.
  unfold names in Hsub. rewrite length_map, length_seq in Hsub. lia.
Qed.

(** ** The file organizer *)

Lemma preserves_refl (fs : FS) : preserves fs fs.
Proof. by intros cat name d. Qed.

Lemma preserves_trans (fs1 fs2 fs3 : FS) :
  preserves fs1 fs2 -> preserves fs2 fs3 -> preserves fs1 fs3.
Proof. intros H12 H23 cat name d H. by apply H23, H12. Qed.

Lemma dest_dir_fs_move (fs : FS) (f : Entry) (cat cat' : Category) (dest name : str) :
  dest_dir (fs_move fs f cat dest) cat' !! name
  = if decide (cat = cat' /\ dest = name) then Some (e_data f)
    else dest_dir fs cat' !! name.
Proof.
  case_decide as H.
  - destruct H as [<- <-]. destruct cat; simpl; apply lookup_insert_eq.
  - destruct cat, cat'; simpl; try done;
      (rewrite lookup_insert_ne; [done|]; intros ->; by apply H).
Qed.

Lemma fs_move_preserves (fs : FS) (f : Entry) (cat : Category) (dest : str) :
  dest_dir fs cat !! dest = None -> preserves fs (fs_move fs f cat dest).
Proof.
  intros Hfree cat' name d H. rewrite dest_dir_fs_move.
  case_decide as Heq; [|done]. destruct Heq as [<- <-]. congruence.
Qed.

Lemma fs_move_names (fs : FS) (f : Entry) (cat : Category) (dest : str) :
  e_name f ∉ names_of (temp_dir (fs_move fs f cat dest)) /\
  names_of (temp_dir (fs_move fs f cat dest)) ⊆ names_of (temp_dir fs).
Proof.
  assert (temp_dir (fs_move fs f cat dest)
          = List.filter (fun g => negb (name_eqb (e_name g) (e_name f))) (temp_dir fs)) as ->
    by by destruct cat.
  unfold names_of. split.
  - intros Hin. apply list_elem_of_fmap in Hin as (g & Hg & Hin).
    apply list_elem_of_In, filter_In in Hin as [_ Hin].
    unfold name_eqb in Hin. apply negb_true_iff, bool_decide_eq_false in Hin. done.
  - intros x Hin. apply list_elem_of_fmap in Hin as (g & -> & Hin).
    apply list_elem_of_In, filter_In in Hin as [Hin _].
    apply list_elem_of_fmap. exists g. split; [done|]. by apply list_elem_of_In.
Qed.

Section Organizer.
Context {U : Unicode} {E : Type}.

Lemma clean_name_of_run (factura_number : str) (w : World E) :
  exists clean_name,
    clean_name_of factura_number w
    = {| outcome := Ok clean_name; world := w; trace := [] |}.
Proof.
  unfold clean_name_of. destruct (is_nil _).
  - rewrite bind_run. cbn. eauto.
  - cbn. eauto.
Qed.

Lemma shutil_move_run (f : Entry) (cat : Category) (dest : str) (w : World E) :
  shutil_move f cat dest w
  = {| outcome := Raised OSError; world := w; trace := [] |}
  \/ shutil_move f cat dest w
     = {| outcome := Ok tt;
          world := {| w_env := w_env w; w_fs := fs_move (w_fs w) f cat dest;
                      w_clock := w_clock w; w_stdin := w_stdin w;
                      w_driver := w_driver w |};
          trace := [] |}.
Proof.
  unfold shutil_move. rewrite bind_run. cbn [get_fs outcome world trace].
  destruct (e_movable f && _); cbn; [by right|by left].
Qed.

Lemma scan_recent_run (now : Z) (entries recent_files : list Entry) (w : World E) :
  (exists found,
     scan_recent now entries recent_files w
     = {| outcome := Ok found; world := w; trace := [] |} /\
     found ⊆ recent_files ++ entries) \/
  scan_recent now entries recent_files w
  = {| outcome := Raised OSError; world := w; trace := [] |}.
Proof.
  revert recent_files.
  induction entries as [|f rest IH]; intros recent_files; cbn [scan_recent].
  - left. eexists. split; [reflexivity|]. set_solver.
  - assert (forall acc, acc ⊆ recent_files ++ [f] ->
              (exists found, scan_recent now rest acc w
                 = {| outcome := Ok found; world := w; trace := [] |} /\
                 found ⊆ recent_files ++ f :: rest) \/
              scan_recent now rest acc w
              = {| outcome := Raised OSError; world := w; trace := [] |}) as Hnext.
    { intros acc Hacc. destruct (IH acc) as [(found & Hrun & Hsub)|Hrun]; [|by right].
      left. exists found. split; [done|]. set_solver. }
    destruct (e_is_file f); [|apply Hnext; set_solver].
    unfold stat_mtime. destruct (e_mtime f) as [mtime|].
    + rewrite bind_run. cbn [ret outcome world trace].
      destruct (now - mtime <? 20000)%Z.
      * destruct (name_eqb _ _ || name_eqb _ _).
        -- destruct (Hnext (recent_files ++ [f])) as [(found & Hrun & Hsub)|Hrun];
             [done| |]; rewrite Hrun; [left|right]; [|done].
           exists found. by split.
        -- destruct (Hnext recent_files) as [(found & Hrun & Hsub)|Hrun];
             [set_solver| |]; rewrite Hrun; [left|right]; [|done].
           exists found. by split.
      * destruct (Hnext recent_files) as [(found & Hrun & Hsub)|Hrun];
          [set_solver| |]; rewrite Hrun; [left|right]; [|done].
        exists found. by split.
    + rewrite bind_run. cbn. by right.
Qed.

(** One round of the loop over the recent files: the file is passed over,
    or the move fails, or the file goes to a name that was free. *)
Lemma move_files_step (factura_number : str) (f : Entry) (rest : list Entry)
    (moved_files : list (Category * list N)) (w : World E) :
  move_files factura_number (f :: rest) moved_files w
  = move_files factura_number rest moved_files w
  \/ move_files factura_number (f :: rest) moved_files w
     = {| outcome := Raised OSError; world := w; trace := [] |}
  \/ exists cat dest,
       dest_dir (w_fs w) cat !! dest = None /\
       move_files factura_number (f :: rest) moved_files w
       = after [Out (MSaved cat dest)]
           (move_files factura_number rest (moved_files ++ [(cat, dest)])
              {| w_env := w_env w; w_fs := fs_move (w_fs w) f cat dest;
                 w_clock := w_clock w; w_stdin := w_stdin w;
                 w_driver := w_driver w |}).
Proof.
  cbn [move_files].
  set (dest := if name_eqb (suffix_lower f) (lit ".pdf") then Some PDF
               else if name_eqb (suffix_lower f) (lit ".xml") then Some XML
               else None).
  destruct dest as [cat|]; [|by left]. right.
  destruct (clean_name_of_run factura_number w) as [clean_name Hclean].
  rewrite bind_run, Hclean. cbn [outcome world trace].
  rewrite bind_run. cbn [get_fs outcome world trace].
  destruct (free_name _ _ _ _ _) as [dest|] eqn:Hfree;
    [|by apply free_name_total in Hfree].
  apply free_name_first in Hfree as [Hfree _].
  rewrite bind_run.
  destruct (shutil_move_run f cat dest w) as [Hmove|Hmove]; rewrite Hmove;
    cbn [outcome world trace].
  - by left.
  - right. exists cat, dest. split; [done|].
    rewrite bind_run. cbn [say outcome world trace]. reflexivity.
Qed.

Lemma saved_cons_saved (cat : Category) (name : str) (t : list Action) :
  saved (Out (MSaved cat name) :: t) = (cat, name) :: saved t.
Proof. reflexivity. Qed.

(** What the loop over the recent files keeps true, however it ends. *)
Lemma move_files_inv (factura_number : str) (recent_files : list Entry)
    (moved_files : list (Category * list N)) (w : World E) :
  let r := move_files factura_number recent_files moved_files w in
  outcome r <> Div /\
  (forall e, outcome r = Raised e -> e = OSError) /\
  (forall moved, outcome r = Ok moved -> moved = moved_files ++ saved (trace r)) /\
  Forall only_saved (trace r) /\
  NoDup (saved (trace r)) /\
  preserves (w_fs w) (w_fs (world r)) /\
  names_of (temp_dir (w_fs (world r))) ⊆ names_of (temp_dir (w_fs w)) /\
  (forall cat name, (cat, name) ∈ saved (trace r) ->
     dest_dir (w_fs w) cat !! name = None /\
     exists src, src ∈ recent_files /\
       dest_dir (w_fs (world r)) cat !! name = Some (e_data src) /\
       e_name src ∉ names_of (temp_dir (w_fs (world r)))).
Proof.
  revert moved_files w.
  induction recent_files as [|f rest IH]; intros moved_files w r.
  - subst r. cbn. split_and!; try done.
    + intros moved [= <-]. by rewrite app_nil_r.
    + constructor.
    + apply preserves_refl.
    + intros cat name H. by apply elem_of_nil in H.
  - destruct (move_files_step factura_number f rest moved_files w)
      as [Hstep|[Hstep|(cat & dest & Hfree & Hstep)]]; subst r; rewrite Hstep.
    + destruct (IH moved_files w) as (H1 & H2 & H3 & H4 & H5 & H6 & H7 & H8).
      split_and!; try done.
      intros cat name H. destruct (H8 cat name H) as (Hnone & src & Hsrc & Hrest).
      split; [done|]. exists src. split; [set_solver|done].
    + cbn. split_and!; try done.
      * by intros e [= <-].
      * constructor.
      * apply preserves_refl.
      * intros cat name H. by apply elem_of_nil in H.
    + set (w1 := {| w_env := w_env w; w_fs := fs_move (w_fs w) f cat dest;
                    w_clock := w_clock w; w_stdin := w_stdin w;
                    w_driver := w_driver w |}).
      destruct (IH (moved_files ++ [(cat, dest)]) w1)
        as (H1 & H2 & H3 & H4 & H5 & H6 & H7 & H8).
      set (r := move_files factura_number rest (moved_files ++ [(cat, dest)]) w1) in *.
      cbn [after outcome world trace app]. rewrite saved_cons_saved.
      pose proof (fs_move_preserves (w_fs w) f cat dest Hfree) as Hpres.
      pose proof (fs_move_names (w_fs w) f cat dest) as [Hgone Hnames].
      assert (dest_dir (w_fs w1) cat !! dest = Some (e_data f)) as Hthere.
      { cbn. rewrite dest_dir_fs_move. by rewrite decide_True. }
      split_and!; try done.
      * intros moved Hok. rewrite (H3 _ Hok), <- app_assoc. done.
      * by constructor.
      * constructor; [|done]. intros Hin.
        destruct (H8 _ _ Hin) as [Hnone _]. congruence.
      * by eapply preserves_trans.
      * cbn in H7. set_solver.
      * intros cat' name H.
        apply elem_of_cons in H as [[= -> ->]|Hin].
        -- split; [done|]. exists f. split; [set_solver|]. split; [by apply H6|].
           intros Hin. apply Hgone. cbn in H7. set_solver.
        -- destruct (H8 _ _ Hin) as (Hnone & src & Hsrc & Hrest).
           split.
           ++ cbn in Hnone. rewrite dest_dir_fs_move in Hnone. by case_decide.
           ++ exists src. split; [set_solver|done].
Qed.

Lemma organize_run (factura_number : str) (w : World E) :
  organize factura_number w = {| outcome := Raised OSError; world := w; trace := [] |}
  \/ exists recent_files,
       recent_files ⊆ temp_dir (w_fs w) /\
       organize factura_number w = after [] (move_files factura_number recent_files [] w).
Proof.
  unfold organize. rewrite bind_run. cbn [time_time outcome world trace].
  rewrite bind_run. cbn [get_fs outcome world trace].
  rewrite bind_run.
  destruct (scan_recent_run (w_clock w) (temp_dir (w_fs w)) [] w)
    as [(found & Hrun & Hsub)|Hrun]; rewrite Hrun; cbn [outcome world trace].
  - right. exists found. split; [set_solver|reflexivity].
  - by left.
Qed.

(** What a call of the body of the organizer keeps true, however it ends. *)
Lemma organize_inv (factura_number : str) (w : World E) :
  let r := organize factura_number w in
  outcome r <> Div /\
  (forall e, outcome r = Raised e -> e = OSError) /\
  (forall moved, outcome r = Ok moved -> moved = saved (trace r)) /\
  Forall only_saved (trace r) /\
  NoDup (saved (trace r)) /\
  preserves (w_fs w) (w_fs (world r)) /\
  (forall cat name, (cat, name) ∈ saved (trace r) ->
     dest_dir (w_fs w) cat !! name = None /\
     exists src, src ∈ temp_dir (w_fs w) /\
       dest_dir (w_fs (world r)) cat !! name = Some (e_data src) /\
       e_name src ∉ names_of (temp_dir (w_fs (world r)))).
Proof.
  intros r. subst r.
  destruct (organize_run factura_number w) as [Hrun|(recent & Hsub & Hrun)];
    rewrite Hrun.
  - cbn. split_and!; try done.
    + by intros e [= <-].
    + constructor.
    + apply preserves_refl.
    + intros cat name H. by apply elem_of_nil in H.
  - destruct (move_files_inv factura_number recent [] w)
      as (H1 & H2 & H3 & H4 & H5 & H6 & _ & H8).
    cbn [after outcome world trace app].
    split_and!; try done.
    intros cat name H. destruct (H8 cat name H) as (Hnone & src & Hsrc & Hrest).
    split; [done|]. exists src. split; [set_solver|done].
Qed.

Lemma saved_app (t1 t2 : list Action) : saved (t1 ++ t2) = saved t1 ++ saved t2.
Proof. apply omap_app. Qed.

(** The two ways [move_downloaded_files] ends: as its body did, or, when
    the body raised, with the empty list from where the body stopped. *)
Lemma move_downloaded_files_run (factura_number : str) (w : World E) :
  let body := organize factura_number w in
  let r := move_downloaded_files factura_number w in
  (exists moved, outcome body = Ok moved /\ r = body) \/
  (exists e, outcome body = Raised e /\
     r = {| outcome := Ok []; world := world body;
            trace := trace body ++ [Out (MOrganizeError e)] |}).
Proof.
  intros body r. subst body r. unfold move_downloaded_files, try_except.
  destruct (organize_inv factura_number w) as (Hdiv & Hexn & _).
  destruct (outcome (organize factura_number w)) as [moved|e|] eqn:Ho; [| |done].
  - left. by exists moved.
  - right. exists e. split; [done|].
    rewrite (Hexn e eq_refl). cbn [is_Exception].
    rewrite bind_run. cbn. done.
Qed.



(** C10. The organizer does not undo anything when it fails. If its body
    raises, while scanning or at some move, the call returns the empty list
    and leaves the file system as the body left it: every file announced as
    saved before the failure was free to take, now holds the contents of a
    file of the download folder, and that file is gone from the folder. *)
Theorem organizer_not_atomic (factura_number : str) (w : World E) (e : exn) :
  outcome (organize factura_number w) = Raised e ->
  let r := move_downloaded_files factura_number w in
  outcome r = Ok [] /\
  w_fs (world r) = w_fs (world (organize factura_number w)) /\
  saved (trace r) = saved (trace (organize factura_number w)) /\
  forall cat name, (cat, name) ∈ saved (trace r) ->
    dest_dir (w_fs w) cat !! name = None /\
    exists src, src ∈ temp_dir (w_fs w) /\
      dest_dir (w_fs (world r)) cat !! name = Some (e_data src) /\
      e_name src ∉ names_of (temp_dir (w_fs (world r))).
Proof.
  intros Hraised r. subst r.
  destruct (organize_inv factura_number w) as (_ & _ & _ & _ & _ & _ & Hsaved).
  destruct (move_downloaded_files_run factura_number w)
    as [(moved & Hbody & _)|(e' & Hbody & ->)]; [congruence|].
  cbn [outcome world trace]. rewrite saved_app, app_nil_r.
  repeat split; [by apply Hsaved|by apply Hsaved].
Qed.

End Organizer.


Lemma organizer_not_atomic_witness :
  let r := move_downloaded_files (U:=ascii_only) (lit "F1") locked_world in
  outcome (organize (U:=ascii_only) (lit "F1") locked_world) = Raised OSError /\
  outcome r = Ok [] /\
  saved (trace r) = [(XML, lit "F1.xml")] /\
  xml_dir (w_fs (world r)) !! lit "F1.xml" = Some 7%nat /\
  names_of (temp_dir (w_fs (world r))) = [lit "b.pdf"].
Proof.
  intros r.
  assert (outcome (organize (U:=ascii_only) (lit "F1") locked_world) = Raised OSError)
    as Hraised by by vm_compute.
  destruct (organizer_not_atomic (U:=ascii_only) (lit "F1") locked_world OSError Hraised)
    as (Hempty & _).
  split; [exact Hraised|]. split; [exact Hempty|].
  split; [by vm_compute|]. split; by vm_compute.
Defined.

(** ** The row indices of a page (lines 208-221) *)

Section RowIndex.
Context {U : Unicode}.




Context {E : Type} {Sel : Selenium E}.

Lemma collect_indices_step (xml_link : nat) (rest : list nat)
    (document_indices : list N) (w : World E) :
  let r := collect_indices (xml_link :: rest) document_indices w in
  let '(a, env, fs) := respond _ (GetAttribute xml_link (lit "id")) (w_env w) (w_fs w) in
  let w1 := {| w_env := env; w_fs := fs; w_clock := w_clock w;
               w_stdin := w_stdin w; w_driver := w_driver w |} in
  match a with
  | Val the_id =>
      r = after [Do (GetAttribute xml_link (lit "id")) (Val the_id)]
            (collect_indices rest
               (document_indices ++ match parse_index the_id with
                                    | Some index => [index]
                                    | None => []
                                    end) w1)
  | Exc e =>
      r = {| outcome := Raised e; world := w1;
             trace := [Do (GetAttribute xml_link (lit "id")) (Exc e)] |}
  end.
Proof.
  cbn [collect_indices]. rewrite bind_run.
  destruct (respond _ (GetAttribute xml_link (lit "id")) (w_env w) (w_fs w))
    as [[a env] fs] eqn:Hr.
  rewrite (call_run _ _ _ _ _ Hr). destruct a as [the_id|e]; cbn [outcome world trace].
  - destruct (parse_index the_id); [done|]. by rewrite app_nil_r.
  - done.
Qed.

Lemma collect_indices_spec (xml_links : list nat) (document_indices : list N) (w : World E) :
  let r := collect_indices xml_links document_indices w in
  outcome r <> Div /\
  Forall asks_attribute (trace r) /\
  (forall e, outcome r = Raised e ->
     exists xml_link, last (trace r) = Some (Do (GetAttribute xml_link (lit "id")) (Exc e))) /\
  (forall indices, outcome r = Ok indices ->
     indices = document_indices ++ omap parse_index (id_answers (trace r)) /\
     length (id_answers (trace r)) = length xml_links).
Proof.
  revert document_indices w.
  induction xml_links as [|xml_link rest IH]; intros document_indices w r.
  - subst r. cbn. split_and!; try done.
    intros indices [= <-]. by rewrite app_nil_r.
  - pose proof (collect_indices_step xml_link rest document_indices w) as Hstep.
    cbv zeta in Hstep.
    destruct (respond _ (GetAttribute xml_link (lit "id")) (w_env w) (w_fs w))
      as [[[the_id|e] env] fs]; subst r; rewrite Hstep.
    + match goal with |- context [collect_indices rest ?acc ?w1] =>
        destruct (IH acc w1) as (H1 & H2 & H3 & H4);
        set (r := collect_indices rest acc w1) in * end.
      cbn [after outcome world trace app]. split_and!; try done.
      * by constructor.
      * intros e He. destruct (H3 e He) as [l Hl]. exists l.
        rewrite last_cons, Hl. done.
      * intros indices Hok. destruct (H4 indices Hok) as [-> Hlen].
        change (id_answers (Do (GetAttribute xml_link (lit "id")) (Val the_id) :: trace r))
          with (the_id :: id_answers (trace r)).
        split; [|cbn [length]; by rewrite Hlen].
        rewrite <- app_assoc. f_equal. cbn [omap list_omap].
        by destruct (parse_index the_id).
    + cbn. split_and!; try done.
      * by repeat constructor.
      * intros e' [= <-]. by exists xml_link.
Qed.


End RowIndex.


(** ** go_to_next_page *)

Lemma carries_token_contains (token classes : str) :
  carries_token token classes -> contains token classes = true.
Proof. intros (pre & post & -> & _). apply contains_spec. eauto. Qed.

Lemma cons_eq_inv {A : Type} (a b : A) (l l' : list A) :
  a :: l = b :: l' -> a = b /\ l = l'.
Proof.
  intros H. split.
  - by apply (f_equal (fun k => match k with x :: _ => x | [] => a end)) in H.
  - by apply (f_equal (fun k => match k with _ :: t => t | [] => [] end)) in H.
Qed.

Section NextPage.
Context {E : Type} {Sel : Selenium E}.

(** What follows an enabled button: the click, the pause, the message. *)
Lemma click_through (next_button : nat) (w : World E) :
  let r := (call (Click next_button) ;; sleep 2000 ;; say MNavigated ;; ret true) w in
  outcome r <> Div /\
  (forall b, outcome r = Ok b -> b = true) /\
  exists res tail,
    trace r = Do (Click next_button) res :: tail /\
    clicks tail = [] /\ class_answers tail = [].
Proof.
  intros r. subst r. rewrite bind_run.
  destruct (respond _ (Click next_button) (w_env w) (w_fs w)) as [[[[]|e] env] fs] eqn:Hr;
    rewrite (call_run _ _ _ _ _ Hr); cbn [outcome world trace].
  - set (w1 := {| w_env := env |}).
    rewrite bind_run.
    destruct (respond _ (Sleep 2000) (w_env w1) (w_fs w1)) as [[[[]|e] env2] fs2] eqn:Hs.
    + rewrite (sleep_run _ _ _ _ Hs). cbn.
      split_and!; try done. 
      * by intros b [= <-].
      * by eexists _, _.
    + rewrite (sleep_run_exc _ _ _ _ _ Hs). cbn.
      split_and!; try done. by eexists _, _.
  - split_and!; try done. by eexists _, _.
Qed.

Lemma clicks_app (t1 t2 : list Action) : clicks (t1 ++ t2) = clicks t1 ++ clicks t2.
Proof. apply omap_app. Qed.

Lemma class_answers_app (t1 t2 : list Action) :
  class_answers (t1 ++ t2) = class_answers t1 ++ class_answers t2.
Proof. apply omap_app. Qed.

Lemma clicks_cons (a : Action) (t : list Action) : clicks (a :: t) = clicks [a] ++ clicks t.
Proof. apply (clicks_app [a] t). Qed.

Lemma clicks_middle (pre : list Action) (e : nat) (res : Result unit) (post : list Action) :
  clicks (pre ++ Do (Click e) res :: post) = clicks pre ++ e :: clicks post.
Proof. by rewrite clicks_app. Qed.

Lemma try_next_buttons_step (next_button : nat) (rest : list nat) (w : World E) :
  let r := try_next_buttons (next_button :: rest) w in
  let '(a, env, fs) := respond _ (GetAttribute next_button (lit "class")) (w_env w) (w_fs w) in
  let w1 := {| w_env := env; w_fs := fs; w_clock := w_clock w;
               w_stdin := w_stdin w; w_driver := w_driver w |} in
  match a with
  | Val attr =>
      r = after [Do (GetAttribute next_button (lit "class")) (Val attr)]
            (if contains disabled_class (classes_of attr)
             then try_next_buttons rest w1
             else (call (Click next_button) ;; sleep 2000 ;; say MNavigated ;; ret true) w1)
  | Exc e =>
      r = {| outcome := Raised e; world := w1;
             trace := [Do (GetAttribute next_button (lit "class")) (Exc e)] |}
  end.
Proof.
  cbn [try_next_buttons]. rewrite bind_run.
  destruct (respond _ (GetAttribute next_button (lit "class")) (w_env w) (w_fs w))
    as [[a env] fs] eqn:Hr.
  rewrite (call_run _ _ _ _ _ Hr). destruct a as [attr|e]; cbn [outcome world trace]; [|done].
  unfold classes_of. by destruct (contains disabled_class _).
Qed.

Lemma try_next_buttons_spec (next_buttons : list nat) (w : World E) :
  let r := try_next_buttons next_buttons w in
  outcome r <> Div /\
  click_guarded (trace r) /\
  (length (clicks (trace r)) <= 1)%nat /\
  (outcome r = Ok true -> exists e, clicks (trace r) = [e] /\ e ∈ next_buttons) /\
  (Forall disabled_answer (class_answers (trace r)) ->
   outcome r = Ok false /\ clicks (trace r) = []).
Proof.
  revert w. induction next_buttons as [|b rest IH]; intros w r.
  - subst r. cbn. split_and!.
    + done.
    + intros pre e res post H. destruct pre as [|x [|y pre]]; try discriminate H;
        apply cons_eq_inv in H as [H _]; apply (f_equal is_click) in H; discriminate.
    + lia.
    + done.
    + done.
  - pose proof (try_next_buttons_step b rest w) as Hstep. cbv zeta in Hstep.
    destruct (respond _ (GetAttribute b (lit "class")) (w_env w) (w_fs w))
      as [[[attr|e] env] fs]; subst r; rewrite Hstep; clear Hstep.
    + destruct (contains disabled_class (classes_of attr)) eqn:Hdis.
      * match goal with |- context [try_next_buttons rest ?w1] =>
          destruct (IH w1) as (H1 & H2 & H3 & H4 & H5);
          set (r := try_next_buttons rest w1) in * end.
        cbn [after outcome world trace app]. split_and!; [done| |done| |].
        -- intros pre e res post H. destruct pre as [|x pre].
           ++ apply cons_eq_inv in H as [H _]. apply (f_equal is_click) in H. discriminate.
           ++ apply cons_eq_inv in H as [<- H]. destruct (H2 _ _ _ _ H) as (pre' & attr' & -> & Hen).
              by exists (Do (GetAttribute b (lit "class")) (Val attr) :: pre'), attr'.
        -- intros Hok. destruct (H4 Hok) as (e & He & Hin). exists e.
           split; [done|set_solver].
        -- intros Hall. apply H5. by inversion Hall.
      * match goal with |- context [(call (Click b) ;; ?k) ?w1] =>
          destruct (click_through b w1) as (H1 & H2 & res & tail & Ht & Hc & Ha);
          set (r := (call (Click b) ;; k) w1) in * end.
        cbn [after outcome world trace app]. rewrite Ht.
        assert (clicks (Do (GetAttribute b (lit "class")) (Val attr)
                        :: Do (Click b) res :: tail) = [b]) as Hcl.
        { change (b :: clicks tail = [b]). by rewrite Hc. }
        split_and!; [done| | | |].
        -- intros pre e res' post H. destruct pre as [|x [|y pre]].
           ++ apply cons_eq_inv in H as [H _]. apply (f_equal is_click) in H. discriminate.
           ++ apply cons_eq_inv in H as [<- H]. apply cons_eq_inv in H as [H _].
              assert (e = b) as ->.
              { apply (f_equal (fun a => clicks [a])) in H. cbn in H. congruence. }
              by exists [], attr.
           ++ apply cons_eq_inv in H as [_ H]. apply cons_eq_inv in H as [_ H].
              apply (f_equal clicks) in H. rewrite Hc, clicks_middle in H.
              by destruct (clicks pre).
        -- rewrite Hcl. cbn. lia.
        -- intros _. exists b. split; [done|set_solver].
        -- intros Hall. inversion Hall as [|x l Hx Hl]; subst.
           destruct Hx as (classes & [= ->] & Hcarry).
           apply carries_token_contains in Hcarry. cbn [classes_of] in Hdis. congruence.
    + cbn. split_and!; [done| | |done|].
      * intros pre e' res post H. destruct pre as [|x [|y pre]]; try discriminate H;
          apply cons_eq_inv in H as [H _]; apply (f_equal is_click) in H; discriminate.
      * lia.
      * intros Hall. inversion Hall as [|x l Hx Hl]; subst.
        by destruct Hx as (classes & [=] & _).
Qed.


Lemma outcome_after {A : Type} (t : list Action) (r : Run E A) :
  outcome (after t r) = outcome r.
Proof. reflexivity. Qed.

Lemma world_after {A : Type} (t : list Action) (r : Run E A) :
  world (after t r) = world r.
Proof. reflexivity. Qed.

Lemma trace_after {A : Type} (t : list Action) (r : Run E A) :
  trace (after t r) = t ++ trace r.
Proof. reflexivity. Qed.

Lemma click_guarded_wrap (a : Action) (t h : list Action) :
  click_guarded t -> is_click a = false -> clicks h = [] ->
  click_guarded (a :: t ++ h).
Proof.
  intros Ht Ha Hh pre e res post H.
  destruct pre as [|x pre].
  - apply cons_eq_inv in H as [H _]. apply (f_equal is_click) in H.
    cbn in H. congruence.
  - apply cons_eq_inv in H as [<- H].
    apply app_eq_app in H as [l [[Ht' H]|[_ H]]].
    + destruct l as [|c l].
      * cbn in H. rewrite <- H in Hh. by cbn in Hh.
      * apply cons_eq_inv in H as [<- _].
        destruct (Ht pre e res l Ht') as (pre' & attr & -> & Hen).
        by exists (a :: pre'), attr.
    + rewrite H, clicks_middle in Hh. by destruct (clicks l).
Qed.

(** C4. The pagination never clicks a control whose class carries the
    disabled marker: every click comes right after the clicked control's
    class was read and found without it. There is at most one click, and
    one when the result is [True]. With no control at all the result is
    [False] and nothing is clicked; when every class read carries the marker
    nothing is clicked either, and the result is [False] unless an
    interrupt cut the call short. No [Exception] leaves the call. *)
Theorem next_page_skips_disabled (w : World E) :
  let r := go_to_next_page w in
  outcome r <> Div /\
  (forall e, outcome r = Raised e -> is_Exception e = false) /\
  (forall pre e res post,
     trace r = pre ++ Do (Click e) res :: post ->
     exists pre' attr,
       pre = pre' ++ [Do (GetAttribute e (lit "class")) (Val attr)] /\
       ~ carries_token disabled_class (classes_of attr)) /\
  (length (clicks (trace r)) <= 1)%nat /\
  (outcome r = Ok true -> length (clicks (trace r)) = 1%nat) /\
  ((respond _ (FindAllCss next_css) (w_env w) (w_fs w)).1.1 = Val [] ->
   outcome r = Ok false /\ clicks (trace r) = []) /\
  (Forall disabled_answer (class_answers (trace r)) ->
   (outcome r = Ok false \/ exists e, outcome r = Raised e) /\ clicks (trace r) = []).
Proof.
  intros r.
  assert (outcome r <> Div /\
          (forall e, outcome r = Raised e -> is_Exception e = false) /\
          click_guarded (trace r) /\
          (length (clicks (trace r)) <= 1)%nat /\
          (outcome r = Ok true -> length (clicks (trace r)) = 1%nat) /\
          ((respond _ (FindAllCss next_css) (w_env w) (w_fs w)).1.1 = Val [] ->
           outcome r = Ok false /\ clicks (trace r) = []) /\
          (Forall disabled_answer (class_answers (trace r)) ->
           (outcome r = Ok false \/ exists e, outcome r = Raised e) /\
           clicks (trace r) = [])) as (H1 & H2 & H3 & H4 & H5 & H6 & H7).
  { subst r. unfold go_to_next_page, try_except. rewrite bind_run.
    fold next_css.
    destruct (respond _ (FindAllCss next_css) (w_env w) (w_fs w))
      as [[[bs|e] env] fs] eqn:Hr; rewrite (call_run _ _ _ _ _ Hr);
      cbn [outcome world trace fst snd].
    - match goal with |- context [try_next_buttons bs ?w1] =>
        destruct (try_next_buttons_spec bs w1) as (T1 & T2 & T3 & T4 & T5);
        set (t := try_next_buttons bs w1) in * end.
      rewrite outcome_after.
      destruct (outcome t) as [b|e|] eqn:Ho; [| |done].
      + rewrite ?outcome_after, ?trace_after, Ho.
        rewrite clicks_app, class_answers_app.
        change (clicks [Do (FindAllCss next_css) (Val bs)]) with (@nil nat).
        change (class_answers [Do (FindAllCss next_css) (Val bs)])
          with (@nil (Result (option (list N)))).
        cbn [app].
        split_and!; [done|done| |done| | |].
        * change ([Do (FindAllCss next_css) (Val bs)] ++ trace t)
            with (Do (FindAllCss next_css) (Val bs) :: trace t).
          rewrite <- (app_nil_r (trace t)). by apply click_guarded_wrap.
        * intros [= ->]. destruct (T4 eq_refl) as (e & -> & _). done.
        * intros [= ->]. subst t. cbn in Ho. injection Ho as <-. by cbn.
        * intros Hall. destruct (T5 Hall) as [[= ->] Hc]. split; [by left|done].
      + destruct (is_Exception e) eqn:He.
        * rewrite bind_run. cbn [say ret outcome world trace].
          rewrite ?outcome_after, ?trace_after, ?world_after. cbn [outcome trace].
          rewrite !clicks_app, !class_answers_app.
          change (clicks [Do (FindAllCss next_css) (Val bs)]) with (@nil nat).
          change (class_answers [Do (FindAllCss next_css) (Val bs)])
            with (@nil (Result (option (list N)))).
          change (clicks ([] ++ [Out (MNextError e)])) with (@nil nat).
          change (class_answers ([] ++ [Out (MNextError e)]))
            with (@nil (Result (option (list N)))).
          cbn [app]. rewrite !app_nil_r.
          split_and!; [done|done| |done|done| |].
          -- change ([Do (FindAllCss next_css) (Val bs)] ++ trace t ++ [] ++ [Out (MNextError e)])
               with (Do (FindAllCss next_css) (Val bs) :: trace t ++ [Out (MNextError e)]).
             by apply click_guarded_wrap.
          -- intros [= ->]. subst t. by cbn in Ho.
          -- intros Hall. by destruct (T5 Hall) as [[=] _].
        * rewrite ?outcome_after, ?trace_after, Ho.
          rewrite clicks_app, class_answers_app.
          change (clicks [Do (FindAllCss next_css) (Val bs)]) with (@nil nat).
          change (class_answers [Do (FindAllCss next_css) (Val bs)])
            with (@nil (Result (option (list N)))).
          cbn [app].
          split_and!; [done| | |done|done| |].
          -- by intros e' [= <-].
          -- change ([Do (FindAllCss next_css) (Val bs)] ++ trace t)
               with (Do (FindAllCss next_css) (Val bs) :: trace t).
             rewrite <- (app_nil_r (trace t)). by apply click_guarded_wrap.
          -- intros [= ->]. subst t. by cbn in Ho.
          -- intros Hall. by destruct (T5 Hall) as [[=] _].
    - destruct (is_Exception e) eqn:He.
      + rewrite bind_run. cbn. split_and!; try done.
        * intros pre e' res post H.
          destruct pre as [|x [|y [|z pre]]]; try discriminate H;
            repeat (apply cons_eq_inv in H as [H0 H]; try (apply (f_equal is_click) in H0; discriminate)).
        * lia.
        * intros _. split; [by left|done].
      + cbn. split_and!; try done.
        * by intros e' [= <-].
        * intros pre e' res post H.
          destruct pre as [|x [|y [|z pre]]]; try discriminate H;
            repeat (apply cons_eq_inv in H as [H0 H]; try (apply (f_equal is_click) in H0; discriminate)).
        * lia.
        * intros _. split; [right; by exists e|done]. }
  split_and!; try done.
  intros pre e res post H. destruct (H3 _ _ _ _ H) as (pre' & attr & -> & Hen).
  exists pre', attr. split; [done|]. intros Hc.
  apply carries_token_contains in Hc. congruence.
Qed.

End NextPage.


Lemma next_page_skips_disabled_witness :
  let r0 := go_to_next_page (start_world idle_portal empty_fs []) in
  let r1 := go_to_next_page (start_world last_page_portal empty_fs []) in
  (outcome r0 = Ok false /\ clicks (trace r0) = []) /\
  Forall disabled_answer (class_answers (trace r1)) /\
  outcome r1 = Ok false /\ clicks (trace r1) = [].
Proof.
  intros r0 r1.
  destruct (next_page_skips_disabled (start_world idle_portal empty_fs []))
    as (_ & _ & _ & _ & _ & Hnone & _).
  destruct (next_page_skips_disabled (start_world last_page_portal empty_fs []))
    as (_ & _ & _ & _ & _ & _ & Hall).
  split; [apply Hnone; reflexivity|].
  assert (Forall disabled_answer (class_answers (trace r1))) as Hdis.
  { assert (class_answers (trace r1)
            = [Val (Some (lit "ui-paginator-next ui-state-disabled"));
               Val (Some (lit "ui-paginator-next ui-state-disabled ui-corner-all"))]) as ->
      by (by vm_compute).
    constructor; [|constructor; [|constructor]].
    - eexists. split; [reflexivity|].
      exists (lit "ui-paginator-next "), []. split; [reflexivity|].
      split; [right; exists (lit "ui-paginator-next"), 32; split; [reflexivity|by left]|by left].
    - eexists. split; [reflexivity|].
      exists (lit "ui-paginator-next "), (lit " ui-corner-all"). split; [reflexivity|].
      split; [right; exists (lit "ui-paginator-next"), 32; split; [reflexivity|by left]|].
      right. exists 32, (lit "ui-corner-all"). split; [reflexivity|by left]. }
  split; [exact Hdis|]. split; [by vm_compute|]. by destruct (Hall Hdis).
Defined.

(** ** Rows: download_document_by_index *)



Lemma marks_app (t1 t2 : list Action) : marks (t1 ++ t2) = marks t1 ++ marks t2.
Proof. apply omap_app. Qed.

Lemma marks_unmarked (t : list Action) : Forall unmarked t -> marks t = [].
Proof.
  induction 1 as [|a t Ha Ht IH]; [done|].
  unfold marks in *. cbn. unfold unmarked in Ha. by rewrite Ha.
Qed.

Create HintDb run_facts discriminated.

Ltac known := solve [auto 1 with run_facts nocore].

Ltac handler_cases e k Hk :=
  intros e k Hk; destruct e; cbn in Hk;
  first [discriminate Hk | injection Hk as <-].

Ltac emits_step :=
  first
    [ known | apply emits_ret | apply emits_raise | apply emits_diverge
    | apply emits_time_time | apply emits_get_fs | apply emits_put_fs
    | apply emits_get_driver | apply emits_set_driver | apply emits_stdin_left
    | apply emits_say; reflexivity
    | apply emits_call; intros; reflexivity
    | apply emits_sleep; intros; reflexivity
    | apply emits_input; intros; reflexivity
    | apply emits_bind; [|intros]
    | apply emits_try_except; [|let e := fresh "e" in let k := fresh "k" in
                                 let Hk := fresh "Hk" in handler_cases e k Hk]
    | match goal with
      | |- emits _ (if ?b then _ else _) => destruct b
      | |- emits _ (match ?x with Some _ => _ | None => _ end) => destruct x
      end ].

Section RowParts.
Context {U : Unicode} {E : Type} {Sel : Selenium E}.

Lemma wait_unmarked : emits unmarked wait_for_download_complete.
Proof.
  eapply emits_weaken; [|apply wait_emits].
  intros a Ha. by destruct a as [m|p r|X [] r].
Qed.

#[local] Hint Resolve wait_unmarked wait_total : run_facts.

Lemma read_invoice_unmarked (xml_link_id factura_number : str) :
  emits unmarked (read_invoice xml_link_id factura_number).
Proof. unfold read_invoice. repeat emits_step. Qed.

End RowParts.

Section Post.
Context {E : Type}.

Lemma post_conseq {A : Type} (c : M E A) (w : World E)
    (Q Q' : Outcome A -> World E -> list Action -> Prop) :
  post c w Q -> (forall o w' t, Q o w' t -> Q' o w' t) -> post c w Q'.
Proof. unfold post. eauto. Qed.

Lemma post_ret {A : Type} (a : A) (w : World E) Q : Q (Ok a) w [] -> post (ret a) w Q.
Proof. done. Qed.

Lemma post_raise {A : Type} (e : exn) (w : World E) (Q : Outcome A -> _) :
  Q (Raised e) w [] -> post (raise e) w Q.
Proof. done. Qed.

Lemma post_say (m : Msg) (w : World E) Q : Q (Ok tt) w [Out m] -> post (say m) w Q.
Proof. done. Qed.

Lemma post_bind {A B : Type} (c : M E A) (k : A -> M E B) (w : World E) Q :
  post c w (fun o w' t =>
              match o with
              | Ok a => post (k a) w' (fun o' w'' t' => Q o' w'' (t ++ t'))
              | Raised e => Q (Raised e) w' t
              | Div => Q Div w' t
              end) ->
  post (bind c k) w Q.
Proof.
  unfold post. rewrite bind_run. by destruct (outcome (c w)).
Qed.

Lemma post_try_except {A : Type} (c : M E A) h (w : World E) Q :
  post c w (fun o w' t =>
              match o with
              | Raised e =>
                  match h e with
                  | Some k => post k w' (fun o' w'' t' => Q o' w'' (t ++ t'))
                  | None => Q (Raised e) w' t
                  end
              | _ => Q o w' t
              end) ->
  post (try_except c h) w Q.
Proof.
  unfold post, try_except.
  destruct (outcome (c w)) as [a|e|] eqn:Ho; try (by rewrite Ho).
  destruct (h e); [done|by rewrite Ho].
Qed.

Lemma post_try_finally {A : Type} (c : M E A) f (w : World E) Q :
  post c w (fun o w' t =>
              match o with
              | Div => Q Div w' t
              | _ => post f w' (fun o' w'' t' =>
                                  Q (match o' with
                                     | Ok _ => o
                                     | Raised e => Raised e
                                     | Div => Div
                                     end) w'' (t ++ t'))
              end) ->
  post (try_finally c f) w Q.
Proof.
  unfold post, try_finally.
  destruct (outcome (c w)) as [a|e|] eqn:Ho; try done. by rewrite Ho.
Qed.

Lemma post_input (p : PromptKind) (w : World E) Q :
  (w_stdin w = [] -> Q (Raised EOFError) w [In p (Exc EOFError)]) ->
  (forall r rest, w_stdin w = r :: rest ->
     Q (match r with Val s => Ok s | Exc e => Raised e end)
       {| w_env := w_env w; w_fs := w_fs w; w_clock := w_clock w;
          w_stdin := rest; w_driver := w_driver w |} [In p r]) ->
  post (input p) w Q.
Proof.
  intros Hnil Hcons. unfold post, input.
  destruct (w_stdin w) as [|r rest]; [by apply Hnil|by apply Hcons].
Qed.

Context {Sel : Selenium E}.

Lemma post_call {X : Type} (ev : Event X) (w : World E) Q :
  (forall r env fs,
     Q (match r with Val x => Ok x | Exc e => Raised e end)
       {| w_env := env; w_fs := fs; w_clock := w_clock w;
          w_stdin := w_stdin w; w_driver := w_driver w |} [Do ev r]) ->
  post (call ev) w Q.
Proof.
  intros H. unfold post, call.
  destruct (respond X ev (w_env w) (w_fs w)) as [[r env] fs]. apply H.
Qed.

Lemma post_sleep (ms : N) (w : World E) Q :
  (forall r env fs,
     Q (match r with Val x => Ok tt | Exc e => Raised e end)
       {| w_env := env; w_fs := fs;
          w_clock := match r with Val _ => (w_clock w + Z.of_N ms)%Z | Exc _ => w_clock w end;
          w_stdin := w_stdin w; w_driver := w_driver w |} [Do (Sleep ms) r]) ->
  post (sleep ms) w Q.
Proof.
  intros H. unfold post.
  destruct (respond unit (Sleep ms) (w_env w) (w_fs w)) as [[[[]|e] env] fs] eqn:Hr.
  - rewrite (sleep_run _ _ _ _ Hr). apply (H (Val tt)).
  - rewrite (sleep_run_exc _ _ _ _ _ Hr). apply (H (Exc e)).
Qed.

End Post.

Section Console.
Context {E : Type}.

Lemma same_console_refl (w : World E) : same_console w w.
Proof. done. Qed.

Lemma same_console_trans (w1 w2 w3 : World E) :
  same_console w1 w2 -> same_console w2 w3 -> same_console w1 w3.
Proof. intros [H1 H2] [H3 H4]. split; congruence. Qed.

Lemma keeps_ret {A : Type} (a : A) : keeps_console (ret (E:=E) a).
Proof. by intros w. Qed.

Lemma keeps_raise {A : Type} e : keeps_console (raise (E:=E) (A:=A) e).
Proof. by intros w. Qed.

Lemma keeps_diverge {A : Type} : keeps_console (diverge (E:=E) (A:=A)).
Proof. by intros w. Qed.

Lemma keeps_say m : keeps_console (say (E:=E) m).
Proof. by intros w. Qed.

Lemma keeps_time_time : keeps_console (time_time (E:=E)).
Proof. by intros w. Qed.

Lemma keeps_get_fs : keeps_console (get_fs (E:=E)).
Proof. by intros w. Qed.

Lemma keeps_put_fs fs : keeps_console (put_fs (E:=E) fs).
Proof. by intros w. Qed.

Lemma keeps_bind {A B : Type} (c : M E A) (k : A -> M E B) :
  keeps_console c -> (forall a, keeps_console (k a)) -> keeps_console (bind c k).
Proof.
  intros Hc Hk w. rewrite bind_run. specialize (Hc w).
  destruct (outcome (c w)) as [a|e|]; [|done|done].
  rewrite world_after. eapply same_console_trans; [done|apply Hk].
Qed.

Lemma keeps_try_except {A : Type} (c : M E A) h :
  keeps_console c -> (forall e k, h e = Some k -> keeps_console k) ->
  keeps_console (try_except c h).
Proof.
  intros Hc Hh w. unfold try_except. specialize (Hc w).
  destruct (outcome (c w)) as [a|e|]; [done| |done].
  destruct (h e) as [k|] eqn:Hk; [|done].
  rewrite world_after. eapply same_console_trans; [done|by eapply Hh].
Qed.

Context {Sel : Selenium E}.

Lemma keeps_call {X : Type} (ev : Event X) : keeps_console (call ev).
Proof.
  intros w. unfold call. by destruct (respond X ev (w_env w) (w_fs w)) as [[r env] fs].
Qed.

Lemma keeps_sleep ms : keeps_console (sleep ms).
Proof. apply keeps_bind; [apply keeps_call|]. by intros _ w. Qed.

End Console.

Ltac keeps_step :=
  first
    [ known | apply keeps_ret | apply keeps_raise | apply keeps_diverge
    | apply keeps_time_time | apply keeps_get_fs | apply keeps_put_fs
    | apply keeps_say | apply keeps_call | apply keeps_sleep
    | apply keeps_bind; [|intros]
    | apply keeps_try_except; [|let e := fresh "e" in let k := fresh "k" in
                                 let Hk := fresh "Hk" in handler_cases e k Hk]
    | match goal with
      | |- keeps_console (if ?b then _ else _) => destruct b
      | |- keeps_console (match ?x with Some _ => _ | None => _ end) => destruct x
      end ].

Ltac total_step :=
  first
    [ known | apply total_ret | apply total_raise
    | apply total_time_time | apply total_get_fs | apply total_put_fs
    | apply total_get_driver | apply total_set_driver | apply total_stdin_left
    | apply total_say | apply total_call | apply total_sleep | apply total_input
    | apply total_bind; [|intros]
    | apply total_try_except; [|let e := fresh "e" in let k := fresh "k" in
                                 let Hk := fresh "Hk" in handler_cases e k Hk]
    | match goal with
      | |- total (if ?b then _ else _) => destruct b
      | |- total (match ?x with Some _ => _ | None => _ end) => destruct x
      end ].

Section RowParts2.
Context {U : Unicode} {E : Type} {Sel : Selenium E}.

Lemma wait_loop_keeps (fuel : nat) (start_time timeout : Z) :
  keeps_console (wait_loop (E:=E) fuel start_time timeout).
Proof.
  induction fuel as [|f IH]; cbn [wait_loop]; repeat keeps_step.
Qed.

#[local] Hint Resolve wait_loop_keeps : run_facts.

Lemma wait_keeps : keeps_console (wait_for_download_complete (E:=E)).
Proof. unfold wait_for_download_complete. repeat keeps_step. Qed.

#[local] Hint Resolve wait_keeps : run_facts.

Lemma read_invoice_total (xml_link_id factura_number : str) :
  total (read_invoice (E:=E) xml_link_id factura_number).
Proof. unfold read_invoice. repeat total_step. Qed.

Lemma read_invoice_keeps (xml_link_id factura_number : str) :
  keeps_console (read_invoice (E:=E) xml_link_id factura_number).
Proof. unfold read_invoice. repeat keeps_step. Qed.

End RowParts2.

Ltac post_step :=
  lazymatch goal with
  | |- post (bind _ _) _ _ => apply post_bind
  | |- post (try_except _ _) _ _ => apply post_try_except
  | |- post (try_finally _ _) _ _ => apply post_try_finally
  | |- post (call _) _ _ => apply post_call; intros [?|?] ? ?
  | |- post (sleep _) _ _ => apply post_sleep; intros [[]|?] ? ?
  | |- post (say _) _ _ => apply post_say
  | |- post (ret _) _ _ => apply post_ret
  | |- post (raise _) _ _ => apply post_raise
  | |- post (if ?b then _ else _) _ _ =>
      let b' := eval cbn [negb is_nil app w_driver] in b in
      lazymatch b' with
      | true => change b with true
      | false => change b with false
      | _ => destruct b eqn:?
      end
  end; cbv beta iota zeta.

(** Closes the leaves of a symbolic run: the console is the one the run
    started with, and the marks of the trace are computed. *)
Ltac console :=
  unfold same_console in *; cbn [w_stdin w_driver] in *;
  repeat match goal with H : _ /\ _ |- _ => destruct H end;
  split; congruence.

Lemma marks_cons (a : Action) (t : list Action) :
  marks (a :: t) = match mark a with Some k => [k] | None => [] end ++ marks t.
Proof. unfold marks. cbn. by destruct (mark a). Qed.

Lemma marks_nil : marks [] = [].
Proof. reflexivity. Qed.

Ltac marks_simpl :=
  repeat first [rewrite marks_app | rewrite marks_cons | rewrite marks_nil];
  repeat match goal with H : marks _ = _ |- _ => rewrite H end;
  cbn [mark app].

Section RowParts3.
Context {U : Unicode} {E : Type} {Sel : Selenium E}.

Lemma wait_post (w : World E) :
  post wait_for_download_complete w
    (fun o w' t => o <> Div /\ marks t = [] /\ same_console w w').
Proof.
  unfold post. split_and!.
  - apply wait_total.
  - apply marks_unmarked, wait_unmarked.
  - apply wait_keeps.
Qed.

Lemma try_download_post (file_type : Category) (the_link_id : str)
    (downloads_successful : list Category) (w : World E) :
  post (try_download file_type the_link_id downloads_successful) w
    (fun o w' t =>
       same_console w w' /\
       match o with
       | Ok ds =>
           (ds = downloads_successful /\ marks t = []) \/
           (ds = downloads_successful ++ [file_type] /\ marks t = [KConfirmed file_type])
       | Raised e => is_Exception e = false /\ marks t = []
       | Div => False
       end).
Proof.
  unfold try_download.
  repeat first
    [ post_step
    | lazymatch goal with
      | |- post wait_for_download_complete ?w _ =>
          eapply post_conseq; [apply wait_post|];
          intros [[]|?|] ? ? (? & ? & [? ?]); cbv beta iota
      | |- match is_Exception ?e with _ => _ end => destruct e; cbn [is_Exception]; cbv beta iota
      | |- match (match ?e with NoSuchElementException => _ | _ => _ end) with _ => _ end =>
          destruct e; cbn [is_Exception]; cbv beta iota
      end ];
    try done;
    (split; [console|]); marks_simpl;
    first [ done | by left | by right | by split ].
Qed.
End RowParts3.

Lemma marks_only_saved (t : list Action) :
  Forall only_saved t -> marks t = map saved_mark (saved t).
Proof.
  induction 1 as [|a t Ha Ht IH]; [done|].
  destruct a as [m|p r|X ev r]; try done. destruct m; try done.
  change (marks (Out (MSaved cat name) :: t)) with (KSaved cat name :: marks t).
  rewrite saved_cons_saved, IH. done.
Qed.

Section OrganizerMarks.
Context {U : Unicode} {E : Type}.

Lemma scan_recent_keeps (now : Z) (entries recent_files : list Entry) :
  keeps_console (scan_recent (E:=E) now entries recent_files).
Proof.
  revert recent_files. induction entries as [|f rest IH]; intros recent_files;
    cbn [scan_recent]; unfold stat_mtime; repeat keeps_step.
Qed.

Lemma move_files_keeps (factura_number : str) (recent_files : list Entry)
    (moved_files : list (Category * list N)) :
  keeps_console (move_files (E:=E) factura_number recent_files moved_files).
Proof.
  revert moved_files. induction recent_files as [|f rest IH]; intros moved_files;
    cbn [move_files]; unfold clean_name_of, shutil_move; repeat keeps_step.
Qed.

Lemma organizer_keeps (factura_number : str) :
  keeps_console (move_downloaded_files (E:=E) factura_number).
Proof.
  pose proof scan_recent_keeps. pose proof move_files_keeps.
  unfold move_downloaded_files, organize. repeat keeps_step.
Qed.

(** The organizer returns a non-empty list exactly when it announced a
    saved file and no error. *)
Lemma organizer_post (factura_number : str) (w : World E) :
  post (move_downloaded_files factura_number) w
    (fun o w' t =>
       same_console w w' /\
       exists moved,
         o = Ok moved /\
         ((marks t = map saved_mark moved /\ moved = saved t) \/
          (moved = [] /\ marks t = map saved_mark (saved t) ++ [KOrganizeError]))).
Proof.
  unfold post. split; [apply organizer_keeps|].
  destruct (organize_inv factura_number w) as (_ & _ & Hok & Halpha & _).
  destruct (move_downloaded_files_run factura_number w)
    as [(moved & Hbody & ->)|(e & Hbody & ->)].
  - exists moved. split; [done|]. left.
    rewrite (Hok _ Hbody) at 1 2. split; [by apply marks_only_saved|done].
  - exists []. cbn [outcome trace]. split; [done|]. right. split; [done|].
    rewrite marks_app, saved_app, app_nil_r. by rewrite marks_only_saved.
Qed.

End OrganizerMarks.

Lemma count_app (p : Mark -> bool) (ms1 ms2 : list Mark) :
  count p (ms1 ++ ms2) = (count p ms1 + count p ms2)%nat.
Proof. unfold count. by rewrite List.filter_app, length_app. Qed.

Lemma count_saved_marks (p : Mark -> bool) (b : bool) (moved : list (Category * list N)) :
  (forall c n, p (KSaved c n) = b) ->
  count p (map saved_mark moved) = if b then length moved else 0%nat.
Proof.
  intros Hp. unfold count.
  induction moved as [|[c n] moved IH]; cbn; [by destruct b|].
  unfold saved_mark at 1. cbn. rewrite Hp. destruct b; cbn; by rewrite IH.
Qed.

Tactic Notation "sub_post" uconstr(lem) :=
  eapply post_conseq; [apply lem|]; cbv beta.

Section Row.
Context {U : Unicode} {E : Type} {Sel : Selenium E}.

Lemma read_invoice_post (xml_link_id factura_number : str) (w : World E) :
  post (read_invoice xml_link_id factura_number) w
    (fun o w' t => o <> Div /\ marks t = [] /\ same_console w w').
Proof.
  unfold post. split_and!.
  - apply read_invoice_total.
  - apply marks_unmarked, read_invoice_unmarked.
  - apply read_invoice_keeps.
Qed.

Lemma forallb_row_saved (moved : list (Category * list N)) :
  forallb row_mark (map saved_mark moved) = true.
Proof. by induction moved as [|[c n] moved IH]. Qed.

Lemma count_cons (p : Mark -> bool) (k : Mark) (ms : list Mark) :
  count p (k :: ms) = ((if p k then 1 else 0) + count p ms)%nat.
Proof. unfold count. cbn. by destruct (p k). Qed.

Lemma count_nil (p : Mark -> bool) : count p [] = 0%nat.
Proof. reflexivity. Qed.

Lemma forallb_cons (p : Mark -> bool) (k : Mark) (ms : list Mark) :
  forallb p (k :: ms) = p k && forallb p ms.
Proof. reflexivity. Qed.

Lemma forallb_nil (p : Mark -> bool) : forallb p [] = true.
Proof. reflexivity. Qed.

Ltac counts :=
  repeat first
    [ rewrite count_app | rewrite count_cons | rewrite count_nil
    | rewrite forallb_app | rewrite forallb_cons | rewrite forallb_nil
    | rewrite forallb_row_saved
    | rewrite (count_saved_marks is_saved true) by done
    | rewrite (count_saved_marks is_confirmed false) by done
    | rewrite (count_saved_marks is_multi false) by done
    | rewrite (count_saved_marks is_organize_error false) by done
    | rewrite (count_saved_marks is_row_error false) by done
    | rewrite (count_saved_marks is_row false) by done
    | rewrite (count_saved_marks is_first_row false) by done
    | rewrite (count_saved_marks is_other_prompt false) by done ];
  cbn [row_mark is_row is_confirmed is_multi is_saved is_organize_error is_row_error
       is_first_row is_other_prompt orb andb negb Nat.add].

Ltac console_le :=
  unfold console_shrinks, same_console in *; cbn [w_stdin w_driver] in *;
  repeat match goal with H : _ /\ _ |- _ => destruct H end;
  split; [congruence|];
  lazymatch goal with
  | |- (length ?a <= length ?b)%nat =>
      first [ replace a with b by congruence; lia
            | match goal with
              | H : _ = ?r :: _ |- _ =>
                  replace b with (r :: a) by congruence; cbn [length]; lia
              end ]
  end.

Ltac leaf :=
  repeat match goal with
         | |- context [?n + 1 =? 1] => destruct (n + 1 =? 1) eqn:?
         | H : (?n =? 0) = _ |- context [?n =? 0] => rewrite H
         end;
  cbn [negb];
  repeat match goal with
         | H : (_ =? _) = true |- _ => apply N.eqb_eq in H
         | H : (_ =? _) = false |- _ => apply N.eqb_neq in H
         end;
  split_and!; intros;
  repeat match goal with
         | H : exists _, _ |- _ => destruct H
         | H : Ok _ = Ok _ |- _ => injection H as H; try subst
         | H : Raised _ = Raised _ |- _ => injection H as H; try subst
         | H : Ok _ = Raised _ |- _ => discriminate H
         | H : Raised _ = Ok _ |- _ => discriminate H
         end;
  rewrite ?Nat.ltb_lt;
  first [ done | lia | congruence
        | split; [intros; discriminate | intros; lia]
        | split; intros; split_and?; first [done | lia | congruence] ].

Lemma row_post_holds (index : N) (w : World E) :
  post (download_document_by_index index) w (row_post index w).
Proof.
  unfold download_document_by_index. cbv zeta.
  repeat first
    [ post_step
    | lazymatch goal with
      | |- post (read_invoice _ _) _ _ =>
          sub_post read_invoice_post; intros [?|?|] ? ? (? & ? & ?); cbv beta iota
      | |- post (try_download _ _ _) _ _ =>
          let o := fresh "o" in let Hd := fresh "Hd" in
          sub_post try_download_post;
          intros o ? ? [? Hd]; destruct o; cbv beta iota in Hd |- *;
          [destruct Hd as [[-> ?]|[-> ?]] | destruct Hd | contradiction]
      | |- post (move_downloaded_files _) _ _ =>
          sub_post organizer_post;
          intros ? ? ? (? & ? & -> & [[? ->]|[-> ?]]); cbv beta iota
      | |- post (input _) _ _ => apply post_input; [intros ?|intros [?|?] ? ?]; cbv beta iota
      | |- match (if is_Exception ?e then _ else _) with _ => _ end =>
          first [is_var e; destruct (is_Exception e) eqn:? | cbn [is_Exception]];
          cbv beta iota
      end ]; try done.
  all: unfold row_post; cbv zeta; marks_simpl.
  all: split; [console_le|].
  all: counts; leaf.
Qed.
End Row.

Section RowTheorems.
Context {U : Unicode} {E : Type} {Sel : Selenium E}.


End RowTheorems.



(** ** Pages and the page loop *)

Lemma row_mark_loop (ms : list Mark) : forallb row_mark ms = true -> forallb loop_mark ms = true.
Proof.
  intros H. apply forallb_forall. intros k Hk.
  rewrite forallb_forall in H. unfold loop_mark. by rewrite (H k Hk).
Qed.

Lemma tame_nil : tame [].
Proof. by split_and!. Qed.

Lemma tame_app (ms1 ms2 : list Mark) : tame ms1 -> tame ms2 -> tame (ms1 ++ ms2).
Proof.
  intros (H1 & H2 & H3) (H4 & H5 & H6). unfold tame.
  rewrite !count_app, forallb_app, H2, H3, H5, H6. split_and!; try done. lia.
Qed.

Lemma tame_page (n : N) : tame [KPage n].
Proof. by split_and!. Qed.

Section Pages.
Context {U : Unicode} {E : Type} {Sel : Selenium E}.

Lemma console_shrinks_refl (w : World E) : console_shrinks w w.
Proof. by split. Qed.

Lemma console_shrinks_trans (w1 w2 w3 : World E) :
  console_shrinks w1 w2 -> console_shrinks w2 w3 -> console_shrinks w1 w3.
Proof. intros [H1 H2] [H3 H4]. split; [congruence|lia]. Qed.

Lemma same_console_shrinks (w1 w2 : World E) : same_console w1 w2 -> console_shrinks w1 w2.
Proof. intros [H1 H2]. split; [done|]. by rewrite H1. Qed.

Lemma row_tame (index : N) (w : World E) :
  post (download_document_by_index index) w
    (fun o w' t =>
       console_shrinks w w' /\ tame (marks t) /\ o <> Div /\
       (forall e, o = Raised e -> is_Exception e = false)).
Proof.
  sub_post (row_post_holds index w).
  intros o w1 t1 (Hc1 & Hd1 & He1 & _ & _ & _ & _ & _ & _ & Hm1 & _ & Ho1 & Hr1).
  split_and!; try done. split_and!; try done. by apply row_mark_loop.
Qed.

Lemma download_rows_post (document_indices : list N) (successful : N) (w : World E) :
  post (download_rows document_indices successful) w
    (fun o w' t => console_shrinks w w' /\ tame (marks t) /\ o <> Div).
Proof.
  revert successful w.
  induction document_indices as [|doc_index rest IH]; intros successful w;
    cbn [download_rows].
  - apply post_ret. split_and!; [apply console_shrinks_refl|apply tame_nil|done].
  - apply post_bind. sub_post (row_tame doc_index w).
    intros o w1 t1 (Hc1 & Ht1 & Hd1 & _).
    destruct o as [ok|e|]; [|by split_and!|done].
    apply post_bind. apply post_sleep. intros [[]|e] env fs.
    + match goal with |- post _ ?w2 _ =>
        sub_post (IH (if ok then successful + 1 else successful) w2) end.
      intros o w3 t3 (Hc3 & Ht3 & Hd3).
      split_and!; [|rewrite !marks_app; repeat apply tame_app; try done; apply tame_nil|done].
      eapply console_shrinks_trans; [exact Hc1|]. exact Hc3.
    + split_and!; [exact Hc1|rewrite !marks_app; repeat apply tame_app; try done; apply tame_nil|done].
Qed.

Lemma collect_indices_keeps (xml_links : list nat) (document_indices : list N) :
  keeps_console (collect_indices (E:=E) xml_links document_indices).
Proof.
  revert document_indices. induction xml_links as [|l rest IH]; intros acc;
    cbn [collect_indices]; repeat keeps_step.
Qed.

Lemma collect_indices_post (xml_links : list nat) (document_indices : list N) (w : World E) :
  post (collect_indices xml_links document_indices) w
    (fun o w' t => o <> Div /\ marks t = [] /\ same_console w w').
Proof.
  unfold post.
  destruct (collect_indices_spec xml_links document_indices w) as (H1 & H2 & _).
  split_and!; [done| |apply collect_indices_keeps].
  apply marks_unmarked. eapply Forall_impl; [exact H2|].
  intros a Ha. by destruct a as [m|p r|X [] r].
Qed.

End Pages.

Ltac shrinks :=
  unfold console_shrinks, same_console in *; cbn [w_stdin w_driver] in *;
  repeat match goal with H : _ /\ _ |- _ => destruct H end;
  split; [congruence|];
  repeat match goal with
         | H : w_stdin _ = _ |- _ => apply (f_equal length) in H; cbn [length] in H
         end;
  cbn [length]; lia.

Ltac tame_leaf :=
  marks_simpl; cbn [app];
  repeat first [ apply tame_nil | assumption | apply tame_page | apply tame_app ].

Section Pages2.
Context {U : Unicode} {E : Type} {Sel : Selenium E}.

Lemma page_post (w : World E) :
  post download_current_page w
    (fun o w' t =>
       console_shrinks w w' /\ tame (marks t) /\ o <> Div /\
       (forall e, o = Raised e -> is_Exception e = false)).
Proof.
  unfold download_current_page.
  repeat first
    [ post_step
    | lazymatch goal with
      | |- post (collect_indices _ _) _ _ =>
          sub_post collect_indices_post; intros [?|?|] ? ? (? & ? & ?); cbv beta iota
      | |- post (download_rows _ _) _ _ =>
          sub_post download_rows_post; intros [?|?|] ? ? (? & ? & ?); cbv beta iota
      | |- match (match ?e with TimeoutException => _ | _ => _ end) with _ => _ end =>
          destruct e; cbn [is_Exception]; cbv beta iota
      end ]; try done.
  all: split_and!; [shrinks|tame_leaf|done|try done; by intros ? [= <-]].
Qed.


Lemma try_next_buttons_unmarked (next_buttons : list nat) :
  emits unmarked (try_next_buttons (E:=E) next_buttons).
Proof. induction next_buttons as [|b rest IH]; cbn [try_next_buttons]; repeat emits_step. Qed.

Lemma try_next_buttons_keeps (next_buttons : list nat) :
  keeps_console (try_next_buttons (E:=E) next_buttons).
Proof. induction next_buttons as [|b rest IH]; cbn [try_next_buttons]; repeat keeps_step. Qed.

Lemma next_page_post (w : World E) :
  post go_to_next_page w
    (fun o w' t =>
       o <> Div /\ marks t = [] /\ same_console w w' /\
       (forall e, o = Raised e -> is_Exception e = false)).
Proof.
  unfold post. destruct (next_page_skips_disabled w) as (H1 & H2 & _).
  pose proof try_next_buttons_unmarked. pose proof try_next_buttons_keeps.
  split_and!; [done| | |done].
  - apply marks_unmarked. unfold go_to_next_page. repeat emits_step.
  - unfold go_to_next_page. repeat keeps_step.
Qed.

Lemma page_loop_post (fuel : nat) (page_count total_success : N) (w : World E) :
  post (page_loop fuel page_count total_success) w
    (fun o w' t =>
       console_shrinks w w' /\ tame (marks t) /\
       ((length (w_stdin w) < fuel)%nat -> o <> Div)).
Proof.
  revert page_count total_success w.
  induction fuel as [|f IH]; intros page_count total_success w; cbn [page_loop].
  - split_and!; [apply console_shrinks_refl|apply tame_nil|lia].
  - cbv zeta.
    repeat first
      [ post_step
      | lazymatch goal with
        | |- post download_current_page _ _ =>
            sub_post page_post; intros [?|?|] ? ? (? & ? & ? & ?); cbv beta iota
        | |- post go_to_next_page _ _ =>
            sub_post next_page_post; intros [?|?|] ? ? (? & ? & ? & ?); cbv beta iota
        | |- post (input _) _ _ =>
            apply post_input; [intros ?|intros [?|?] ? ?]; cbv beta iota
        | |- post (page_loop f _ _) _ _ =>
            sub_post IH; intros ? ? ? (? & ? & ?); cbv beta
        end ]; try done.
    all: split_and!; [shrinks|tame_leaf|first [done|intros ?]].
    all: match goal with H : _ -> ?o <> Div |- ?o <> Div => apply H end.
    all: unfold console_shrinks, same_console in *; cbn [w_stdin w_driver] in *;
      repeat match goal with H : _ /\ _ |- _ => destruct H end;
      repeat match goal with
             | H : w_stdin _ = _ |- _ => apply (f_equal length) in H; cbn [length] in H
             end;
      cbn [length]; lia.
Qed.

End Pages2.

(** ** The run *)

Lemma count_loop_mark (p : Mark -> bool) (ms : list Mark) :
  (forall k, loop_mark k = true -> p k = false) ->
  forallb loop_mark ms = true -> count p ms = 0%nat.
Proof.
  intros Hp. unfold count. induction ms as [|k ms IH]; [done|].
  cbn. intros H. apply andb_true_iff in H as [Hk Hms].
  rewrite (Hp k Hk). by apply IH.
Qed.

Lemma login_then_pages_loop (ms rest : list Mark) :
  forallb loop_mark ms = true ->
  login_then_pages true (ms ++ rest) = login_then_pages true rest.
Proof.
  induction ms as [|k ms IH]; [done|].
  cbn [forallb app]. intros H. apply andb_true_iff in H as [Hk Hms].
  destruct k; try discriminate Hk; cbn; by apply IH.
Qed.

Section Run.
Context {U : Unicode} {E : Type} {Sel : Selenium E}.

Lemma post_set_driver (d : bool) (w : World E) Q :
  Q (Ok tt) {| w_env := w_env w; w_fs := w_fs w; w_clock := w_clock w;
               w_stdin := w_stdin w; w_driver := d |} [] ->
  post (set_driver d) w Q.
Proof. done. Qed.

Lemma post_get_driver (w : World E) Q : Q (Ok (w_driver w)) w [] -> post get_driver w Q.
Proof. done. Qed.

Lemma post_stdin_left (w : World E) Q :
  Q (Ok (length (w_stdin w))) w [] -> post stdin_left w Q.
Proof. done. Qed.

Ltac tame_counts :=
  repeat match goal with
         | H : tame (marks ?t) |- _ =>
             let Hm := fresh "Hm" in let Ho := fresh "Ho" in let Hl := fresh "Hl" in
             destruct H as (Hm & Ho & Hl);
             pose proof (count_loop_mark is_summary _ ltac:(by intros []) Hl);
             pose proof (count_loop_mark is_interrupted _ ltac:(by intros []) Hl);
             pose proof (count_loop_mark is_unexpected _ ltac:(by intros []) Hl);
             pose proof (count_loop_mark is_quit _ ltac:(by intros []) Hl);
             pose proof (count_loop_mark is_started _ ltac:(by intros []) Hl);
             pose proof (count_loop_mark is_login _ ltac:(by intros []) Hl)
         end.

Lemma last_one {A : Type} (x : A) : last [x] = Some x.
Proof. reflexivity. Qed.

Ltac run_counts :=
  rewrite <- ?app_assoc;
  repeat first [ rewrite count_app | rewrite count_cons | rewrite count_nil ];
  cbn [is_summary is_interrupted is_unexpected is_quit is_started is_login is_multi
       is_first_row is_other_prompt login_then_pages negb andb Nat.add app];
  rewrite ?login_then_pages_loop by assumption;
  cbn [login_then_pages negb andb];
  repeat match goal with H : count _ _ = _ |- _ => rewrite H end;
  repeat rewrite app_comm_cons;
  repeat first [ rewrite last_app | rewrite last_one ];
  cbv beta iota.

Ltac run_leaf :=
  try (exfalso;
       match goal with
       | H : _ -> Div <> Div |- _ => apply H; [cbn [w_stdin length]; lia|reflexivity]
       end);
  unfold run_post; cbv zeta; marks_simpl; cbn [app];
  unfold console_shrinks, same_console in *; cbn [w_stdin w_driver] in *;
  repeat match goal with H : _ /\ _ |- _ => destruct H end;
  tame_counts; run_counts;
  split_and!; intros;
  repeat match goal with
         | H : exists _, _ |- _ => destruct H
         | H : Ok _ = Ok _ |- _ => clear H
         | H : Raised _ = Raised _ |- _ => injection H as H; try subst
         | H : Ok _ = Raised _ |- _ => discriminate H
         | H : Raised _ = Ok _ |- _ => discriminate H
         end;
  first [ done | lia | congruence | by left | by right | by eexists
        | split; intros; first [done | lia | congruence | by left | by right]
        | intuition (first [done | lia | congruence]) ].

Lemma run_post_holds (start_url : str) (w : World E) :
  post (run start_url) w (run_post w).
Proof.
  unfold run, setup_driver.
  repeat first
    [ post_step
    | lazymatch goal with
      | |- post (set_driver _) _ _ => apply post_set_driver; cbv beta iota
      | |- post get_driver _ _ => apply post_get_driver; cbv beta iota
      | |- post stdin_left _ _ => apply post_stdin_left; cbv beta iota
      | |- post (input _) _ _ =>
          apply post_input; [intros ?|intros [?|?] ? ?]; cbv beta iota
      | |- post (page_loop _ _ _) _ _ =>
          sub_post page_loop_post; intros [?|?|] ? ? (? & ? & ?); cbv beta iota
      | |- match (if is_Exception ?e then _ else _) with _ => _ end =>
          first [is_var e; destruct e | idtac]; cbn [is_Exception]; cbv beta iota
      | |- match (match ?e with KeyboardInterrupt => _ | _ => _ end) with _ => _ end =>
          first [is_var e; destruct e | idtac]; cbn [is_Exception]; cbv beta iota
      end ]; try done.
  all: run_leaf.
Qed.

End Run.

Section RunTheorems.
Context {U : Unicode} {E : Type} {Sel : Selenium E}.

(** C6, as the code has it. The multi-file prompt belongs to the rows whose
    portal index is 0: a row of another index never prompts, a row of index
    0 prompts once when it runs to its end without a row error, and no row
    prompts twice. In a run the login prompt comes at most once and before
    any page, row or multi-file prompt; there are at most as many
    multi-file prompts as rows of index 0 were announced, and none for
    another index. *)
Theorem prompts_by_row_index :
  (forall (index : N) (w : World E),
     let ms := marks (trace (download_document_by_index index w)) in
     (count is_multi ms <= 1)%nat /\
     (index <> 0 -> count is_multi ms = 0%nat) /\
     (index = 0 ->
      (exists b, outcome (download_document_by_index index w) = Ok b) ->
      count is_row_error ms = 0%nat -> count is_multi ms = 1%nat)) /\
  (forall (start_url : str) (w : World E),
     let ms := marks (trace (run start_url w)) in
     (count is_login ms <= 1)%nat /\
     login_then_pages false ms = true /\
     (count is_multi ms <= count is_first_row ms)%nat /\
     count is_other_prompt ms = 0%nat).
Proof.
  split.
  - intros index w ms.
    destruct (row_post_holds index w) as (_ & _ & _ & _ & H1 & H2 & H3 & _).
    by split_and!.
  - intros start_url w ms.
    destruct (run_post_holds start_url w)
      as (_ & _ & _ & _ & _ & _ & _ & _ & H1 & H2 & H3 & H4).
    by split_and!.
Qed.

(** C7, as the code has it. A run ends. An exception leaves it only when
    the closing call raised it or it is a [SystemExit]. The summary, the
    interruption notice and the error notice exclude each other, and a run
    that returns printed exactly one of them. The session is closed at most
    once, exactly when the driver had been started, and closing it is then
    the last thing marked. *)
Theorem run_cleanup (start_url : str) (w : World E) :
  let r := run start_url w in
  let ms := marks (trace r) in
  outcome r <> Div /\
  (forall e, outcome r = Raised e -> last ms = Some (KQuit (Exc e)) \/ e = SystemExit) /\
  (count is_summary ms + count is_interrupted ms + count is_unexpected ms <= 1)%nat /\
  ((exists x, outcome r = Ok x) ->
   (count is_summary ms + count is_interrupted ms + count is_unexpected ms = 1)%nat) /\
  (count is_quit ms <= 1)%nat /\
  (count is_quit ms = 1%nat <-> w_driver (world r) = true) /\
  (count is_quit ms = 1%nat -> exists res, last ms = Some (KQuit res)) /\
  (w_driver (world r) = true <-> w_driver w = true \/ (0 < count is_started ms)%nat).
Proof.
  intros r ms.
  destruct (run_post_holds start_url w)
    as (H1 & H2 & H3 & H4 & H5 & H6 & H7 & H8 & _).
  by split_and!.
Qed.

End RunTheorems.

Lemma prompts_by_row_index_witness :
  let w := start_world (page_of [portal_row 0 "001-001-000000001"]) empty_fs [Val []] in
  let r := download_document_by_index (U:=ascii_only) 0 w in
  outcome r = Ok true /\
  count is_row_error (marks (trace r)) = 0%nat /\
  count is_multi (marks (trace r)) = 1%nat.
Proof.
  intros w r.
  destruct (prompts_by_row_index (U:=ascii_only) (E:=Portal)) as [Hrow _].
  destruct (Hrow 0 w) as (_ & _ & Hzero).
  assert (outcome r = Ok true) as Hr by (by vm_compute).
  assert (count is_row_error (marks (trace r)) = 0%nat) as He by (by vm_compute).
  split; [exact Hr|]. split; [exact He|].
  apply Hzero; [reflexivity|by exists true|exact He].
Defined.

(** A run whose first row has index 5 never asks for the multi-file
    confirmation; a run that retries a page whose row has index 0 asks
    twice. *)
Lemma prompts_counterexample :
  let first := marks (trace (run (U:=ascii_only) start_url
                 (start_world (page_of [portal_row 5 "001-001-000000005"]) empty_fs one_page))) in
  let again := marks (trace (run (U:=ascii_only) start_url
                 (start_world (page_of [portal_row 0 "001-001-000000001"]) empty_fs
                    retried_page))) in
  (count is_row first = 1%nat /\ count is_multi first = 0%nat) /\
  count is_multi again = 2%nat.
Proof. by vm_compute. Qed.

Lemma run_cleanup_witness :
  let r := run (U:=ascii_only) start_url
             (start_world (page_of [portal_row 5 "001-001-000000005"]) empty_fs one_page) in
  outcome r = Ok tt /\
  (count is_summary (marks (trace r)) + count is_interrupted (marks (trace r))
   + count is_unexpected (marks (trace r)) = 1)%nat /\
  count is_quit (marks (trace r)) = 1%nat.
Proof.
  intros r.
  destruct (run_cleanup (U:=ascii_only) start_url
              (start_world (page_of [portal_row 5 "001-001-000000005"]) empty_fs one_page))
    as (_ & _ & _ & Hone & _ & Hquit & _).
  assert (outcome r = Ok tt) as Hr by (by vm_compute).
  split; [exact Hr|]. split; [apply Hone; by exists tt|].
  apply Hquit. by vm_compute.
Defined.

(** An interrupt at the login prompt: the run returns, the session is
    closed, and no summary is printed. A session that cannot be closed: the
    run ends with the exception of the closing call. *)
Lemma run_cleanup_counterexample :
  let interrupted := run (U:=ascii_only) start_url
        (start_world (page_of [portal_row 5 "001-001-000000005"]) empty_fs
           [Exc KeyboardInterrupt]) in
  let stuck := run (U:=ascii_only) start_url (start_world stuck_portal empty_fs one_page) in
  (outcome interrupted = Ok tt /\
   count is_summary (marks (trace interrupted)) = 0%nat /\
   count is_quit (marks (trace interrupted)) = 1%nat) /\
  failure_status (outcome stuck) = true.
Proof. by vm_compute. Qed.
